(** * Share-or-Steal server: matchmaking and match life cycle

    A shallow embedding of [server/index.js]: the per-location waiting
    queues, the table of live matches, the decision timer and the four
    socket handlers ([join_location], [submit_choice], [disconnect] and the
    timer callback [maybeFinish]), followed by the properties of the
    specification that concern them.

    The server is single threaded: every handler runs to completion, so a
    handler is a function from the state before to the state after and the
    list of events it emits.  What the handler reads from the outside world
    ([uuidv4()], [Date.now()], [Math.random()]) is an argument of the step. *)

From Stdlib Require Import ZArith Lia.
From stdpp Require Import base option list gmap fin_maps strings.

Local Open Scope string_scope.
Local Open Scope list_scope.
Local Open Scope Z_scope.

(** ** JavaScript values that reach the handlers *)

(** Payload fields and record slots hold a string, [null] or [undefined]. *)
Inductive jsval : Type :=
  | undefined
  | null
  | str (s : string).

#[global] Instance jsval_eq_dec : EqDecision jsval.
Proof. solve_decision. Defined.

Definition jsval_to_sum (v : jsval) : unit + (unit + string) :=
  match v with
  | undefined => inl tt
  | null => inr (inl tt)
  | str s => inr (inr s)
  end.

Definition jsval_of_sum (x : unit + (unit + string)) : jsval :=
  match x with
  | inl _ => undefined
  | inr (inl _) => null
  | inr (inr s) => str s
  end.

#[global] Instance jsval_countable : Countable jsval.
Proof.
  apply (inj_countable' jsval_to_sum jsval_of_sum).
  intros []; reflexivity.
Defined.

(** Truthiness: [undefined], [null] and the empty string are falsy. *)
Definition truthy (v : jsval) : bool :=
  match v with
  | str s => negb (String.eqb s "")
  | _ => false
  end.

(** [x || y] *)
Definition js_or (x y : jsval) : jsval := if truthy x then x else y.

(** ** Data model *)

(** A connected socket: [socket.data] and the location captured by each extra
    ['disconnect'] listener that [join_location] registered on it, in
    registration order.  [socket.id] is the key under which the registry
    holds the socket. *)
Record Socket : Type := mkSocket {
  s_locationId : jsval;
  s_playerName : jsval;
  s_cleanups : list jsval
}.

(** One side of a match: [{ id, name, choice }]. *)
Record Player : Type := mkPlayer {
  p_id : string;
  p_name : jsval;
  p_choice : jsval
}.

(** A match record.  [m_timer] is the handle returned by [setTimeout]. *)
Record Match : Type := mkMatch {
  m_id : string;
  m_locationId : jsval;
  m_a : Player;
  m_b : Player;
  m_deadline : Z;
  m_finished : bool;
  m_timer : nat
}.

(** Events the server sends to a client. *)
Inductive ServerEvent : Type :=
  | queued (position : nat)
  | match_found (matchId : string) (opponent_id : string)
      (opponent_name : jsval) (decisionDeadline : Z)
  | choice_recorded (matchId : string)
  | error (message : string)
  | requeue (reason : string)
  | result (matchId : string) (yourChoice theirChoice yourPrizeCode : jsval).

(** An emission: the receiving socket id and the event. *)
Definition Emission : Type := string * ServerEvent.

(** The server state.
    - [sockets] is [io.sockets.sockets], the registry of live connections;
    - [waitingByLocation] maps a location to its queue of socket ids;
    - [matches] is the [Map] of live matches, kept in insertion order since
      the disconnect handler iterates over it;
    - [timers] are the pending [setTimeout] callbacks: a handle maps to the
      match id the callback closes over and the time it is due;
    - [next_timer] is the next fresh handle. *)
Record State : Type := mkState {
  sockets : gmap string Socket;
  waitingByLocation : gmap jsval (list string);
  matches : list (string * Match);
  timers : gmap nat (string * Z);
  next_timer : nat
}.

Definition initial : State :=
  mkState ∅ ∅ [] ∅ 0%nat.

Definition DECISION_MS : Z := 20000.

(** ** The [matches] Map: insertion-ordered, one entry per key *)

Fixpoint map_get (k : string) (l : list (string * Match)) : option Match :=
  match l with
  | [] => None
  | (k', v) :: l' => if decide (k = k') then Some v else map_get k l'
  end.

(** [Map.prototype.set]: an existing key keeps its place, a new key goes last. *)
Fixpoint map_set (k : string) (v : Match) (l : list (string * Match))
  : list (string * Match) :=
  match l with
  | [] => [(k, v)]
  | (k', v') :: l' =>
      if decide (k = k') then (k, v) :: l' else (k', v') :: map_set k v l'
  end.

Fixpoint map_delete (k : string) (l : list (string * Match))
  : list (string * Match) :=
  match l with
  | [] => []
  | (k', v') :: l' =>
      if decide (k = k') then map_delete k l' else (k', v') :: map_delete k l'
  end.

(** ** Arrays of socket ids *)

(** [const idx = q.indexOf(x); if (idx !== -1) q.splice(idx, 1)] *)
Fixpoint remove_first (x : string) (q : list string) : list string :=
  match q with
  | [] => []
  | y :: q' => if decide (x = y) then q' else y :: remove_first x q'
  end.

(** ** Outcome resolver *)

Record Prizes : Type := mkPrizes {
  outcome : string;
  aPrize : jsval;
  bPrize : jsval
}.

(** [computeOutcomeAndPrizes(a, b)].  [c1] and [c2] are what the first and the
    second call of [code()] return. *)
Definition computeOutcomeAndPrizes (c1 c2 : string) (ca cb : jsval) : Prizes :=
  if decide (ca = str "share" ∧ cb = str "share") then
    mkPrizes "SS" (str ("P-" +:+ c1)) (str ("P-" +:+ c2))
  else if decide (ca = str "share" ∧ cb = str "steal") then
    mkPrizes "ST" null (str ("P-" +:+ c1 +:+ "-BOTH"))
  else if decide (ca = str "steal" ∧ cb = str "share") then
    mkPrizes "TS" (str ("P-" +:+ c1 +:+ "-BOTH")) null
  else
    mkPrizes "TT" null null.

(** ** Handlers *)

Definition set_choice (p : Player) (c : jsval) : Player :=
  mkPlayer (p_id p) (p_name p) c.

Definition set_a (m : Match) (p : Player) : Match :=
  mkMatch (m_id m) (m_locationId m) p (m_b m) (m_deadline m) (m_finished m) (m_timer m).

Definition set_b (m : Match) (p : Player) : Match :=
  mkMatch (m_id m) (m_locationId m) (m_a m) p (m_deadline m) (m_finished m) (m_timer m).

(** [const sock = io.sockets.sockets.get(sid); if (sock) sock.emit(ev)] *)
Definition emit_if_live (socks : gmap string Socket) (sid : string)
    (ev : ServerEvent) : list Emission :=
  match socks !! sid with
  | Some _ => [(sid, ev)]
  | None => []
  end.

(** [maybeFinish(matchId)].  The bookkeeping of the one-play-per-day gate
    ([recordPlayedToday]) touches only [devicePlays] and is left out. *)
Definition maybeFinish (matchId : string) (now : Z) (c1 c2 : string)
    (st : State) : State * list Emission :=
  match map_get matchId (matches st) with
  | None => (st, [])
  | Some m =>
      if m_finished m then (st, [])
      else
        let ca := js_or (p_choice (m_a m))
                    (if now >? m_deadline m then str "steal" else null) in
        let cb := js_or (p_choice (m_b m))
                    (if now >? m_deadline m then str "steal" else null) in
        if truthy ca && truthy cb then
          let pz := computeOutcomeAndPrizes c1 c2 ca cb in
          let out :=
            emit_if_live (sockets st) (p_id (m_a m))
              (result (m_id m) ca cb (js_or (aPrize pz) null)) ++
            emit_if_live (sockets st) (p_id (m_b m))
              (result (m_id m) cb ca (js_or (bPrize pz) null)) in
          (mkState (sockets st) (waitingByLocation st)
             (map_delete matchId (matches st))
             (delete (m_timer m) (timers st)) (next_timer st),
           out)
        else (st, [])
  end.

(** [createMatch(sockA, sockB)], with [idA = sockA.id] and [idB = sockB.id].
    The timer counts its [DECISION_MS + 250] from the clock reading [now]
    that gives the deadline. *)
Definition createMatch (idA : string) (sockA : Socket) (idB : string)
    (sockB : Socket) (uuid : string) (now : Z)
    (st : State) : State * list Emission :=
  let matchId := uuid in
  let locationId := s_locationId sockA in
  let deadline := now + DECISION_MS in
  let m :=
    mkMatch matchId locationId
      (mkPlayer idA (s_playerName sockA) null)
      (mkPlayer idB (s_playerName sockB) null)
      deadline false (next_timer st) in
  (mkState (sockets st) (waitingByLocation st)
     (map_set matchId m (matches st))
     (<[next_timer st := (matchId, now + (DECISION_MS + 250))]> (timers st))
     (S (next_timer st)),
   [(idA, match_found matchId idB (p_name (m_b m)) deadline);
    (idB, match_found matchId idA (p_name (m_a m)) deadline)]).

(** The ['join_location'] listener of socket [sid]. *)
Definition join_location (sid : string) (locationId playerName : jsval)
    (uuid : string) (now : Z) (st : State) : State * list Emission :=
  match sockets st !! sid with
  | None => (st, [])
  | Some socket0 =>
      let socket :=
        mkSocket locationId (js_or playerName (str "Player"))
          (s_cleanups socket0) in
      let socks := <[sid := socket]> (sockets st) in
      let waiting :=
        match waitingByLocation st !! locationId with
        | Some _ => waitingByLocation st
        | None => <[locationId := []]> (waitingByLocation st)
        end in
      let queue := default [] (waiting !! locationId) in
      match queue with
      | partnerId :: rest =>
          match socks !! partnerId with
          | None =>
              let queue' := rest ++ [sid] in
              (mkState socks (<[locationId := queue']> waiting) (matches st)
                 (timers st) (next_timer st),
               [(sid, queued (length queue'))])
          | Some partner =>
              createMatch partnerId partner sid socket uuid now
                (mkState socks (<[locationId := rest]> waiting) (matches st)
                   (timers st) (next_timer st))
          end
      | [] =>
          let queue' := [sid] in
          let socket' :=
            mkSocket (s_locationId socket) (s_playerName socket)
              (s_cleanups socket ++ [locationId]) in
          (mkState (<[sid := socket']> socks)
             (<[locationId := queue']> waiting) (matches st)
             (timers st) (next_timer st),
           [(sid, queued (length queue'))])
      end
  end.

Definition is_legal (choice : jsval) : bool :=
  bool_decide (choice = str "share" ∨ choice = str "steal").

(** The ['submit_choice'] listener of socket [sid]. *)
Definition submit_choice (sid : string) (matchId : string) (choice : jsval)
    (now : Z) (c1 c2 : string) (st : State) : State * list Emission :=
  match sockets st !! sid with
  | None => (st, [])
  | Some socket =>
      match map_get matchId (matches st) with
      | None => (st, [(sid, error "Match not found")])
      | Some m =>
          if negb (is_legal choice) then (st, [])
          else
            let recorded (m' : Match) :=
              let st1 :=
                mkState (sockets st) (waitingByLocation st)
                  (map_set matchId m' (matches st)) (timers st)
                  (next_timer st) in
              let '(st2, out) := maybeFinish matchId now c1 c2 st1 in
              (st2, (sid, choice_recorded matchId) :: out) in
            if decide (sid = p_id (m_a m)) then
              recorded (set_a m (set_choice (m_a m) choice))
            else if decide (sid = p_id (m_b m)) then
              recorded (set_b m (set_choice (m_b m) choice))
            else (st, [(sid, error "Not part of this match")])
      end
  end.

(** The loop of the connection-level ['disconnect'] listener:
    [for (const [matchId, match] of matches) ...].  It returns the matches
    that stay, the queues and the emissions. *)
Fixpoint cancel_matches (sid : string) (socks : gmap string Socket)
    (ms : list (string * Match)) (waiting : gmap jsval (list string))
  : list (string * Match) * gmap jsval (list string) * list Emission :=
  match ms with
  | [] => ([], waiting, [])
  | (matchId, m) :: rest =>
      if m_finished m then
        let '(ms', w', out) := cancel_matches sid socks rest waiting in
        ((matchId, m) :: ms', w', out)
      else if bool_decide (p_id (m_a m) = sid ∨ p_id (m_b m) = sid) then
        let survivorId :=
          if decide (p_id (m_a m) = sid) then p_id (m_b m) else p_id (m_a m) in
        let '(waiting1, out1) :=
          match socks !! survivorId with
          | Some survivor =>
              let loc := m_locationId m in
              let w :=
                match waiting !! loc with
                | Some _ => waiting
                | None => <[loc := []]> waiting
                end in
              (<[loc := default [] (w !! loc) ++ [survivorId]]> w,
               [(survivorId, requeue "Opponent disconnected")])
          | None => (waiting, [])
          end in
        let '(ms', w', out) := cancel_matches sid socks rest waiting1 in
        (ms', w', out1 ++ out)
      else
        let '(ms', w', out) := cancel_matches sid socks rest waiting in
        ((matchId, m) :: ms', w', out)
  end.

(** The listener that [join_location] adds when it enqueues into an empty
    queue: remove the socket id from the queue of the captured location. *)
Definition cleanup_listener (sid : string) (waiting : gmap jsval (list string))
    (locationId : jsval) : gmap jsval (list string) :=
  match waiting !! locationId with
  | Some q => <[locationId := remove_first sid q]> waiting
  | None => waiting
  end.

(** A transport disconnect of socket [sid]: socket.io first takes the socket
    out of the registry, then calls its ['disconnect'] listeners in the order
    they were registered: the connection-level one, then the clean-ups. *)
Definition disconnect (sid : string) (st : State) : State * list Emission :=
  match sockets st !! sid with
  | None => (st, [])
  | Some socket =>
      let socks := delete sid (sockets st) in
      let '(ms, w, out) :=
        cancel_matches sid socks (matches st) (waitingByLocation st) in
      let w' := foldl (cleanup_listener sid) w (s_cleanups socket) in
      (mkState socks w' ms (timers st) (next_timer st), out)
  end.

(** The timer callback [() => maybeFinish(matchId)] of handle [h] runs once
    the handle is pending and due. *)
Definition timeout (h : nat) (now : Z) (c1 c2 : string) (st : State)
  : State * list Emission :=
  match timers st !! h with
  | Some (matchId, due) =>
      if due <=? now then
        maybeFinish matchId now c1 c2
          (mkState (sockets st) (waitingByLocation st) (matches st)
             (delete h (timers st)) (next_timer st))
      else (st, [])
  | None => (st, [])
  end.

(** [io.on('connection', socket => ...)]: a new socket with empty [data]. *)
Definition connection (sid : string) (st : State) : State * list Emission :=
  (mkState (<[sid := mkSocket undefined undefined []]> (sockets st))
     (waitingByLocation st) (matches st) (timers st) (next_timer st),
   []).

(** ** Inputs and runs *)

Inductive Input : Type :=
  | Connect (sid : string)
  | JoinLocation (sid : string) (locationId playerName : jsval)
      (uuid : string) (now : Z)
  | SubmitChoice (sid : string) (matchId : string) (choice : jsval)
      (now : Z) (c1 c2 : string)
  | Disconnect (sid : string)
  | TimerFires (h : nat) (now : Z) (c1 c2 : string).

Definition step (st : State) (i : Input) : State * list Emission :=
  match i with
  | Connect sid => connection sid st
  | JoinLocation sid l n u now => join_location sid l n u now st
  | SubmitChoice sid mid c now c1 c2 => submit_choice sid mid c now c1 c2 st
  | Disconnect sid => disconnect sid st
  | TimerFires h now c1 c2 => timeout h now c1 c2 st
  end.

Fixpoint run (st : State) (inputs : list Input) : State * list Emission :=
  match inputs with
  | [] => (st, [])
  | i :: rest =>
      let '(st1, out1) := step st i in
      let '(st2, out2) := run st1 rest in
      (st2, out1 ++ out2)
  end.


(** ** Vocabulary of the specification *)

(** The specification names the four outcome codes of the resolver. *)
Inductive Category : Type :=
  | MutualShare
  | Exploited
  | ExploitedMirrored
  | MutualSteal.

Definition category (code : string) : option Category :=
  if decide (code = "SS") then Some MutualShare
  else if decide (code = "ST") then Some Exploited
  else if decide (code = "TS") then Some ExploitedMirrored
  else if decide (code = "TT") then Some MutualSteal
  else None.

(** A side is tokened when the [yourPrizeCode] it is sent, [prize || null],
    is not [null]. *)
Definition tokened (prize : jsval) : bool :=
  bool_decide (js_or prize null ≠ null).

(** What the resolver decides apart from the token values. *)
Definition resolution (c1 c2 : string) (ca cb : jsval)
  : option Category * bool * bool :=
  let pz := computeOutcomeAndPrizes c1 c2 ca cb in
  (category (outcome pz), tokened (aPrize pz), tokened (bPrize pz)).

Definition share : jsval := str "share".
Definition steal : jsval := str "steal".

(** The side a submitting socket writes to: [a] is tested first. *)
Inductive Side : Type := SideA | SideB.

Definition side_of (sid : string) (m : Match) : option Side :=
  if decide (sid = p_id (m_a m)) then Some SideA
  else if decide (sid = p_id (m_b m)) then Some SideB
  else None.

Definition player (sd : Side) (m : Match) : Player :=
  match sd with SideA => m_a m | SideB => m_b m end.

Definition record_choice (sd : Side) (c : jsval) (m : Match) : Match :=
  match sd with
  | SideA => set_a m (set_choice (m_a m) c)
  | SideB => set_b m (set_choice (m_b m) c)
  end.

(** A side has a decision at time [now]: recorded, or defaulted because the
    deadline has passed. *)
Definition decided (now : Z) (m : Match) (p : Player) : bool :=
  truthy (p_choice p) || (now >? m_deadline m).

Definition participant (sid : string) (m : Match) : Prop :=
  p_id (m_a m) = sid ∨ p_id (m_b m) = sid.

#[global] Instance participant_dec sid m : Decision (participant sid m).
Proof. unfold participant. apply _. Defined.

(** The other side of [sid] in [m], as the disconnect handler computes it. *)
Definition opponent (sid : string) (m : Match) : string :=
  if decide (p_id (m_a m) = sid) then p_id (m_b m) else p_id (m_a m).

(** Number of times [x] occurs in a queue. *)
Definition occurrences (x : string) (q : list string) : nat :=
  length (filter (λ y, y = x) q).

(** ** Concrete states used in examples *)

(** A state with one connection, ["X"], and a match between ["A"] and ["B"]. *)
Definition st_two_matched : State :=
  (run initial
     [Connect "X"; Connect "A"; Connect "B";
      JoinLocation "A" (str "L") (str "Ann") "m1" 1000;
      JoinLocation "B" (str "L") (str "Bob") "m1" 1001]).1.


(** ["A"] waits alone at location ["L"]; ["C"] is connected and idle. *)
Definition st_one_waiting : State :=
  (run initial
     [Connect "A"; Connect "C";
      JoinLocation "A" (str "L") (str "Ann") "m1" 1000]).1.

(** ** Runs of submissions *)

(** What one [submit_choice] call brings: the choice, the clock and the two
    random codes read while it is handled. *)
Record Submission : Type := mkSubmission {
  sub_choice : jsval;
  sub_now : Z;
  sub_c1 : string;
  sub_c2 : string
}.

Definition submissions (sid matchId : string) (subs : list Submission)
  : list Input :=
  map (λ s, SubmitChoice sid matchId (sub_choice s) (sub_now s) (sub_c1 s)
              (sub_c2 s)) subs.

Definition with_matches (st : State) (ms : list (string * Match)) : State :=
  mkState (sockets st) (waitingByLocation st) ms (timers st) (next_timer st).

(** ** Vocabulary for the disconnect handler *)

(** The disconnect of [sid] cancels [m]: it is unfinished and [sid] is on
    one of its sides. *)
Definition cancelled (sid : string) (m : Match) : Prop :=
  m_finished m = false ∧ participant sid m.

#[global] Instance cancelled_dec sid m : Decision (cancelled sid m).
Proof. unfold cancelled. apply _. Defined.

(** The survivors of the matches that the disconnect of [sid] cancels, in
    the order of the [matches] Map: the opponents that are still connected. *)
Fixpoint requeued (sid : string) (socks : gmap string Socket)
    (ms : list (string * Match)) : list (jsval * string) :=
  match ms with
  | [] => []
  | (_, m) :: rest =>
      if decide (cancelled sid m) then
        match socks !! opponent sid m with
        | Some _ => (m_locationId m, opponent sid m) :: requeued sid socks rest
        | None => requeued sid socks rest
        end
      else requeued sid socks rest
  end.

(** Those of them that go back to the queue of [loc]. *)
Definition survivors (sid : string) (socks : gmap string Socket)
    (ms : list (string * Match)) (loc : jsval) : list string :=
  snd <$> filter (λ lo, lo.1 = loc) (requeued sid socks ms).

(** ** Counting where a socket id sits *)

(** Occurrences of [x] over all the queues. *)
Definition queue_occ (x : string) (w : gmap jsval (list string)) : nat :=
  map_fold (λ _ q n, (occurrences x q + n)%nat) 0%nat w.

(** Number of sides of [m] that [x] is on. *)
Definition sides (x : string) (m : Match) : nat :=
  ((if decide (p_id (m_a m) = x) then 1 else 0) +
   (if decide (p_id (m_b m) = x) then 1 else 0))%nat.

(** Sides that [x] is on over all the live matches. *)
Definition match_occ (x : string) (ms : list (string * Match)) : nat :=
  sum_list_with (λ km, sides x km.2) ms.

Definition occ (x : string) (st : State) : nat :=
  (queue_occ x (waitingByLocation st) + match_occ x (matches st))%nat.

(** [sid] waits in no queue and is on no side of a live match. *)
Definition idle (st : State) (sid : string) : Prop :=
  queue_occ sid (waitingByLocation st) = 0%nat ∧
  match_occ sid (matches st) = 0%nat.

(** Runs in which a socket sends [join_location] only while it is idle. *)
Definition allowed (st : State) (i : Input) : Prop :=
  match i with
  | JoinLocation sid _ _ _ _ => idle st sid
  | _ => True
  end.

Inductive reachable : State → Prop :=
  | reachable_initial : reachable initial
  | reachable_step st i :
      reachable st → allowed st i → reachable (step st i).1.

(** No socket id is in two queues. *)
Definition unique_queue (st : State) : Prop :=
  ∀ x loc1 loc2 q1 q2,
    waitingByLocation st !! loc1 = Some q1 →
    waitingByLocation st !! loc2 = Some q2 →
    x ∈ q1 → x ∈ q2 → loc1 = loc2.

(** No socket id is a participant of two live matches. *)
Definition unique_match (st : State) : Prop :=
  ∀ x (i j : nat) km1 km2,
    matches st !! i = Some km1 →
    matches st !! j = Some km2 →
    participant x km1.2 → participant x km2.2 → i = j.

(** ["X"] joins two locations in a row. *)
Definition st_joined_twice : State :=
  (run initial
     [Connect "X";
      JoinLocation "X" (str "L1") undefined "m1" 1000;
      JoinLocation "X" (str "L2") undefined "m2" 1001]).1.

(** ["A"] and ["B"] are matched at ["L"], ["A"] disconnects, then ["B"]. *)
Definition st_survivor_left : State :=
  (run initial
     [Connect "A"; Connect "B";
      JoinLocation "A" (str "L") (str "Ann") "m1" 1000;
      JoinLocation "B" (str "L") (str "Bob") "m1" 1001;
      Disconnect "A"; Disconnect "B"]).1.

(** Every input of a run is allowed in the state it arrives in. *)
Fixpoint run_allowed (st : State) (inputs : list Input) : Prop :=
  match inputs with
  | [] => True
  | i :: rest => allowed st i ∧ run_allowed (step st i).1 rest
  end.

(** ** The rest of the server *)

(** [GET /queue/:locationId]: the [waiting] field of the response,
    [(waitingByLocation.get(locationId) || []).length]. *)
Definition queue_waiting (locationId : jsval) (st : State) : nat :=
  length (default [] (waitingByLocation st !! locationId)).

(** What [getIrishDateKey()] finds when it runs: the day of the month in
    Dublin, which stands first in the ['en-IE'] date string, and the first ten
    characters of [toISOString()] of the date parsed back from that string,
    for the case that the parse gives a date. *)
Record IrishClock : Type := mkIrishClock {
  dublin_day : nat;
  iso_day : string
}.

(** [getIrishDateKey()]. [new Date(now)] reads the first number of the
    ['en-IE'] string as the month: for a day of the month above 12 the result
    is an invalid date, on which [toISOString()] throws a [RangeError];
    [None] is that exception. *)
Definition getIrishDateKey (clock : IrishClock) : option string :=
  if (12 <? dublin_day clock)%nat then None else Some (iso_day clock).

(** The response of [POST /can-play]; [reason] is [undefined] when the field
    is absent. *)
Record CanPlay : Type := mkCanPlay {
  canPlay : bool;
  reason : jsval
}.

(** [POST /can-play] for the request's [deviceId]. [devicePlays] maps a device
    id to its [lastDate]. [None]: the handler throws before it answers, when
    [getIrishDateKey()] does, and the request ends with a server error. *)
Definition can_play (deviceId : jsval) (clock : IrishClock)
    (devicePlays : gmap jsval string) : option CanPlay :=
  match getIrishDateKey clock with
  | None => None
  | Some today =>
      match devicePlays !! deviceId with
      | Some lastDate =>
          if decide (lastDate = today)
          then Some (mkCanPlay false (str "already_played_today"))
          else Some (mkCanPlay true undefined)
      | None => Some (mkCanPlay true undefined)
      end
  end.

(** [recordPlayedToday(deviceId)]. [None]: it throws, when
    [getIrishDateKey()] does, and [devicePlays] is left as it was. *)
Definition recordPlayedToday (deviceId : jsval) (clock : IrishClock)
    (devicePlays : gmap jsval string) : option (gmap jsval string) :=
  if negb (truthy deviceId) then Some devicePlays
  else
    match getIrishDateKey clock with
    | None => None
    | Some today => Some (<[deviceId := today]> devicePlays)
    end.

(** The bookkeeping at the end of [maybeFinish], a [try] block whose [catch]
    only logs. [devA] and [devB] are the [device_id] cookies of the two
    sockets, [undefined] for a socket that is gone or sent no such cookie;
    each call of [recordPlayedToday] reads the clock on its own. An exception
    in the first call leaves the block, so the second finalist is skipped. *)
Definition recordFinalists (devA devB : jsval) (clockA clockB : IrishClock)
    (devicePlays : gmap jsval string) : gmap jsval string :=
  let afterA :=
    if truthy devA then recordPlayedToday devA clockA devicePlays
    else Some devicePlays in
  match afterA with
  | None => devicePlays
  | Some plays1 =>
      if truthy devB then
        match recordPlayedToday devB clockB plays1 with
        | None => plays1
        | Some plays2 => plays2
        end
      else plays1
  end.

(** ** States of arbitrary runs *)

(** The states the server can be in: any inputs, in any order. *)
Inductive reached : State → Prop :=
  | reached_initial : reached initial
  | reached_step st i : reached st → reached (step st i).1.

(** An entry of the match table is in order: it sits under its own id, is
    not finished, and its timer is pending, due 250 ms after its deadline. *)
Definition match_ok (st : State) (km : string * Match) : Prop :=
  m_id km.2 = km.1 ∧
  m_finished km.2 = false ∧
  timers st !! m_timer km.2 = Some (km.1, m_deadline km.2 + 250).

Definition table_ok (st : State) : Prop :=
  NoDup (matches st).*1 ∧
  Forall (match_ok st) (matches st) ∧
  (∀ h, is_Some (timers st !! h) → (h < next_timer st)%nat).

(** Both sides of every live match are connected. *)
Definition participants_live (st : State) : Prop :=
  ∀ km, km ∈ matches st →
    is_Some (sockets st !! p_id (m_a km.2)) ∧
    is_Some (sockets st !! p_id (m_b km.2)).

(** ** Runs of joins at one location *)

Record Joiner : Type := mkJoiner {
  j_sid : string;
  j_name : jsval;
  j_uuid : string;
  j_now : Z
}.

Definition joins (locationId : jsval) (js : list Joiner) : list Input :=
  map (λ j, JoinLocation (j_sid j) locationId (j_name j) (j_uuid j) (j_now j)) js.

(** What a [match_found] emission says about the pairing: who is told, the
    match id and the opponent. *)
Definition pairing (e : Emission) : option (string * string * string) :=
  match e.2 with
  | match_found matchId opponent_id _ _ => Some (e.1, matchId, opponent_id)
  | _ => None
  end.

(** The pairings of the heads [q] with the joiners [js], in order. *)
Fixpoint fifo_pairings (q : list string) (js : list Joiner)
  : list (string * string * string) :=
  match q, js with
  | p :: q', j :: js' =>
      (p, j_uuid j, j_sid j) :: (j_sid j, j_uuid j, p) :: fifo_pairings q' js'
  | _, _ => []
  end.

(** Number of clean-up listeners of [socket] that captured [locationId]. *)
Definition listeners_at (locationId : jsval) (socket : Socket) : nat :=
  length (filter (λ l, l = locationId) (s_cleanups socket)).

(** ["A"] waits at ["L"], then disconnects. *)
Definition st_left_while_queued : State :=
  (run initial
     [Connect "A"; JoinLocation "A" (str "L") (str "Ann") "m1" 1000]).1.

(** ["C"] and ["B"] wait at ["L"], in this order: ["B"] was matched with
    ["A"] and sent back to the queue when ["A"] left; ["D"] and ["E"] are
    connected and have not joined. *)
Definition st_two_waiting : State :=
  (run initial
     [Connect "A"; Connect "B"; Connect "C"; Connect "D"; Connect "E";
      JoinLocation "A" (str "L") (str "Ann") "m1" 1000;
      JoinLocation "B" (str "L") (str "Bob") "m1" 1001;
      JoinLocation "C" (str "L") (str "Cy") "m2" 1002;
      Disconnect "A"]).1.

(** ** Waiting for the timer *)

(** The inputs that leave the match [uuid] between [idA] and [idB] waiting
    for its timer [h]: no legal choice for it from one of its two sides,
    neither side disconnects, its timer does not fire, and no later match is
    given its id. *)
Definition leaves_waiting (uuid idA idB : string) (h : nat) (i : Input) : Prop :=
  match i with
  | Connect _ => True
  | JoinLocation _ _ _ u _ => u ≠ uuid
  | SubmitChoice sid matchId choice _ _ _ =>
      ¬ (matchId = uuid ∧ is_legal choice = true ∧ (sid = idA ∨ sid = idB))
  | Disconnect sid => sid ≠ idA ∧ sid ≠ idB
  | TimerFires h' _ _ _ => h' ≠ h
  end.

(** ** Orderly runs *)





(** ** Leaving a queue *)




(** The match [m0] sits in the table under [uuid] as it was made, no timer
    but its own names [uuid], and its two sides are connected. *)
Definition awaits (uuid : string) (m0 : Match) (st : State) : Prop :=
  table_ok st ∧
  map_get uuid (matches st) = Some m0 ∧
  (∀ h d, timers st !! h = Some (uuid, d) → h = m_timer m0) ∧
  is_Some (sockets st !! p_id (m_a m0)) ∧
  is_Some (sockets st !! p_id (m_b m0)).

(** ["A"] waits at ["L"]; ["B"] and ["X"] are connected. *)
Definition st_before_match : State :=
  (run initial
     [Connect "X"; Connect "A"; Connect "B";
      JoinLocation "A" (str "L") (str "Ann") "m0" 1000]).1.

(** Inputs that leave the match ["m1"] of ["A"] and ["B"] to its timer. *)
Definition quiet_inputs : list Input :=
  [SubmitChoice "X" "m1" share 1500 "K1" "K2";
   SubmitChoice "A" "m1" (str "maybe") 1600 "K1" "K2";
   JoinLocation "X" (str "L") undefined "m2" 1700;
   Disconnect "X"].

(** ** Basic facts about the [matches] Map *)

Section map_facts.
Implicit Types (k : string) (v : Match) (l : list (string * Match)).

Lemma map_get_set_eq k v l : map_get k (map_set k v l) = Some v.
Proof.
  induction l as [|[k' v'] l IH]; simpl.
  - by rewrite decide_True.
  - destruct (decide (k = k')) as [->|Hne]; simpl.
    + by rewrite decide_True.
    + by rewrite decide_False.
Qed.

Lemma map_get_delete_eq k l : map_get k (map_delete k l) = None.
Proof.
  induction l as [|[k' v'] l IH]; simpl; [done|].
  destruct (decide (k = k')) as [->|Hne]; simpl; [done|].
  by rewrite decide_False.
Qed.

Lemma map_set_fresh k v l : map_get k l = None → map_set k v l = l ++ [(k, v)].
Proof.
  induction l as [|[k' v'] l IH]; simpl; [done|].
  destruct (decide (k = k')); [done|]. intros H. by rewrite IH.
Qed.

Lemma map_set_set k v v' l : map_set k v' (map_set k v l) = map_set k v' l.
Proof.
  induction l as [|[k0 v0] l IH]; simpl.
  - by rewrite decide_True.
  - destruct (decide (k = k0)) as [->|Hne]; simpl.
    + by rewrite decide_True.
    + by rewrite decide_False, IH.
Qed.

End map_facts.

Lemma truthy_js_or_default (x : jsval) (late : bool) :
  truthy (js_or x (if late then str "steal" else null)) = truthy x || late.
Proof. unfold js_or. destruct (truthy x) eqn:E; [by rewrite E|by destruct late]. Qed.

Lemma is_legal_truthy (c : jsval) : is_legal c = true → truthy c = true.
Proof.
  unfold is_legal. intros H. apply bool_decide_eq_true in H.
  by destruct H as [-> | ->].
Qed.

(** ** Outcome resolver *)

(** C1. The category and the presence of a token on each side are fixed by
    the two decisions, whatever codes the random generator returns:
    share/share is mutual-share with both sides tokened, share/steal is
    exploited with only side B tokened, steal/share is the mirrored case with
    only side A tokened, steal/steal is mutual-steal with no token; and for
    any two decisions the category and the token presence are the same for
    all random codes. *)
Theorem C1_resolution_table (c1 c2 : string) :
  resolution c1 c2 share share = (Some MutualShare, true, true) ∧
  resolution c1 c2 share steal = (Some Exploited, false, true) ∧
  resolution c1 c2 steal share = (Some ExploitedMirrored, true, false) ∧
  resolution c1 c2 steal steal = (Some MutualSteal, false, false) ∧
  (∀ c1' c2' ca cb, resolution c1 c2 ca cb = resolution c1' c2' ca cb).
Proof.
  repeat split; try reflexivity.
  intros c1' c2' ca cb. unfold resolution, computeOutcomeAndPrizes.
  repeat case_decide; reflexivity.
Qed.

(** ** [submit_choice] with a value that is not a decision *)

(** C5, as the code has it. A [submit_choice] whose choice is neither
    ['share'] nor ['steal'] never changes the state. When the match id names
    a live match nothing is emitted; when it names no live match the sender
    is sent the error ['Match not found'], since the handler looks the match
    up before it looks at the choice. *)
Theorem C5_illegal_choice (sid matchId : string) (choice : jsval) (now : Z)
    (c1 c2 : string) (st : State) (socket : Socket) :
  sockets st !! sid = Some socket →
  is_legal choice = false →
  (submit_choice sid matchId choice now c1 c2 st).1 = st ∧
  (submit_choice sid matchId choice now c1 c2 st).2 =
    match map_get matchId (matches st) with
    | Some _ => []
    | None => [(sid, error "Match not found")]
    end.
Proof.
  intros Hs Hc. unfold submit_choice. rewrite Hs.
  destruct (map_get matchId (matches st)); [|done].
  by rewrite Hc.
Qed.

Lemma C5_illegal_choice_witness :
  (submit_choice "X" "m1" (str "maybe") 1500 "" "" st_two_matched).1
    = st_two_matched ∧
  (submit_choice "X" "m1" (str "maybe") 1500 "" "" st_two_matched).2 = [].
Proof.
  apply (C5_illegal_choice "X" "m1" (str "maybe") 1500 "" "" st_two_matched
           (mkSocket undefined undefined [])); reflexivity.
Defined.

(** C5 as stated fails: an illegal choice sent with an unknown match id is
    answered with an error. *)
Lemma C5_counterexample :
  is_legal (str "maybe") = false ∧
  map_get "nope" (matches st_two_matched) = None ∧
  (submit_choice "X" "nope" (str "maybe") 1500 "" "" st_two_matched).2
    = [("X", error "Match not found")].
Proof. repeat split; reflexivity. Qed.

(** ** [join_location]: enqueue or pair *)

(** C4. A [join_location] from a connected socket at location [loc]:
    - empty (or missing) queue: the queue becomes the requester alone, the
      requester is told [queued] at position 1, no match is created;
    - live head: the head is popped and nothing else in the queue changes,
      one match is added with the head as side A and the requester as side
      B, and both are told [match_found];
    - stale head: the head is dropped, the requester goes to the tail and is
      told [queued] at the new length, no match is created. *)
Theorem C4_join_location (sid : string) (loc name : jsval) (uuid : string)
    (now : Z) (st : State) (socket : Socket) :
  sockets st !! sid = Some socket →
  map_get uuid (matches st) = None →
  let st' := (join_location sid loc name uuid now st).1 in
  let out := (join_location sid loc name uuid now st).2 in
  match default [] (waitingByLocation st !! loc) with
  | [] =>
      waitingByLocation st' = <[loc := [sid]]> (waitingByLocation st) ∧
      matches st' = matches st ∧
      out = [(sid, queued 1)]
  | head :: rest =>
      match sockets st !! head with
      | Some _ =>
          ∃ m,
            matches st' = matches st ++ [(uuid, m)] ∧
            p_id (m_a m) = head ∧ p_id (m_b m) = sid ∧
            waitingByLocation st' = <[loc := rest]> (waitingByLocation st) ∧
            out = [(head, match_found uuid sid (p_name (m_b m)) (m_deadline m));
                   (sid, match_found uuid head (p_name (m_a m)) (m_deadline m))]
      | None =>
          waitingByLocation st' = <[loc := rest ++ [sid]]> (waitingByLocation st) ∧
          matches st' = matches st ∧
          out = [(sid, queued (length (rest ++ [sid])))]
      end
  end.
Proof.
  intros Hs Hfresh. unfold join_location. rewrite Hs.
  destruct (waitingByLocation st !! loc) as [[|head rest]|] eqn:Hq; simpl.
  - rewrite Hq. simpl. done.
  - rewrite Hq. simpl.
    destruct (decide (head = sid)) as [->|Hne].
    + rewrite lookup_insert_eq, Hs. simpl.
      eexists. rewrite (map_set_fresh _ _ _ Hfresh). repeat split; reflexivity.
    + rewrite lookup_insert_ne by done.
      destruct (sockets st !! head) as [partner|]; simpl.
      * eexists. rewrite (map_set_fresh _ _ _ Hfresh). repeat split; reflexivity.
      * done.
  - rewrite lookup_insert_eq. simpl. by rewrite insert_insert_eq.
Qed.

Lemma C4_join_location_witness :
  ∃ m,
    matches (join_location "C" (str "L") undefined "m2" 2000 st_one_waiting).1
      = [("m2", m)] ∧
    p_id (m_a m) = "A" ∧ p_id (m_b m) = "C" ∧
    waitingByLocation
      (join_location "C" (str "L") undefined "m2" 2000 st_one_waiting).1
      = <[str "L" := []]> (waitingByLocation st_one_waiting) ∧
    (join_location "C" (str "L") undefined "m2" 2000 st_one_waiting).2
      = [("A", match_found "m2" "C" (p_name (m_b m)) (m_deadline m));
         ("C", match_found "m2" "A" (p_name (m_a m)) (m_deadline m))].
Proof.
  apply (C4_join_location "C" (str "L") undefined "m2" 2000 st_one_waiting
           (mkSocket undefined undefined [])); reflexivity.
Defined.

(** ** Deadline *)

Lemma js_or_null_default (now deadline : Z) :
  deadline < now →
  js_or null (if now >? deadline then str "steal" else null) = steal.
Proof.
  intros H. destruct (Z.gtb_spec now deadline) as [_|Hle]; [done|lia].
Qed.


(** ** Choices and defaults *)

Lemma js_or_legal (c d : jsval) : is_legal c = true → js_or c d = c.
Proof. intros H. unfold js_or. by rewrite (is_legal_truthy _ H). Qed.

Lemma js_or_null_early (now deadline : Z) :
  now ≤ deadline →
  js_or null (if now >? deadline then str "steal" else null) = null.
Proof.
  intros H. destruct (Z.gtb_spec now deadline) as [Hgt|_]; [lia|done].
Qed.


(** ** [submit_choice] on a live match *)

Section submit.
Variables (sid matchId : string).

Lemma maybeFinish_wait now c1 c2 st m :
  map_get matchId (matches st) = Some m →
  m_finished m = false →
  decided now m (m_a m) && decided now m (m_b m) = false →
  maybeFinish matchId now c1 c2 st = (st, []).
Proof.
  intros Hm Hf Hd. unfold maybeFinish. rewrite Hm, Hf.
  rewrite !truthy_js_or_default. unfold decided in Hd. by rewrite Hd.
Qed.

Lemma maybeFinish_done now c1 c2 st m :
  map_get matchId (matches st) = Some m →
  m_finished m = false →
  decided now m (m_a m) && decided now m (m_b m) = true →
  map_get matchId (matches (maybeFinish matchId now c1 c2 st).1) = None.
Proof.
  intros Hm Hf Hd. unfold maybeFinish. rewrite Hm, Hf.
  rewrite !truthy_js_or_default. unfold decided in Hd. rewrite Hd. simpl.
  apply map_get_delete_eq.
Qed.

Lemma maybeFinish_gone now c1 c2 st :
  map_get matchId (matches st) = None →
  maybeFinish matchId now c1 c2 st = (st, []).
Proof. intros Hm. unfold maybeFinish. by rewrite Hm. Qed.

Lemma submit_choice_recorded c now c1 c2 st socket m sd :
  sockets st !! sid = Some socket →
  map_get matchId (matches st) = Some m →
  side_of sid m = Some sd →
  is_legal c = true →
  submit_choice sid matchId c now c1 c2 st =
    ((maybeFinish matchId now c1 c2
        (with_matches st (map_set matchId (record_choice sd c m) (matches st)))).1,
     (sid, choice_recorded matchId) ::
     (maybeFinish matchId now c1 c2
        (with_matches st (map_set matchId (record_choice sd c m) (matches st)))).2).
Proof.
  intros Hs Hm Hsd Hc. unfold submit_choice, side_of in *.
  rewrite Hs, Hm, Hc. simpl.
  destruct (decide (sid = p_id (m_a m))).
  - injection Hsd as <-. unfold with_matches. simpl.
    by destruct (maybeFinish _ _ _ _ _).
  - destruct (decide (sid = p_id (m_b m))); [|done].
    injection Hsd as <-. unfold with_matches. simpl.
    by destruct (maybeFinish _ _ _ _ _).
Qed.

Lemma submit_choice_gone c now c1 c2 st :
  map_get matchId (matches st) = None →
  (submit_choice sid matchId c now c1 c2 st).1 = st.
Proof.
  intros Hm. unfold submit_choice. rewrite Hm.
  by destruct (sockets st !! sid).
Qed.

Lemma run_submissions_gone subs st :
  map_get matchId (matches st) = None →
  (run st (submissions sid matchId subs)).1 = st.
Proof.
  revert st. induction subs as [|s subs IH]; intros st Hm; [done|].
  simpl.
  pose proof (submit_choice_gone (sub_choice s) (sub_now s) (sub_c1 s)
                (sub_c2 s) st Hm) as H1.
  destruct (submit_choice _ _ _ _ _ _ st) as [st1 out1]. simpl in H1. subst st1.
  specialize (IH st Hm).
  destruct (run st _) as [st2 out2]. done.
Qed.

Lemma side_of_record sd c m :
  side_of sid (record_choice sd c m) = side_of sid m.
Proof. by destruct sd. Qed.

Lemma record_choice_choice sd c m :
  p_choice (player sd (record_choice sd c m)) = c.
Proof. by destruct sd. Qed.

(** While the match stays live, a run of legal submissions from [sid]
    leaves the last choice recorded and emits one acknowledgment each. *)
Lemma run_submissions_live subs : ∀ st socket m sd m',
  sockets st !! sid = Some socket →
  map_get matchId (matches st) = Some m →
  m_finished m = false →
  side_of sid m = Some sd →
  Forall (λ s, is_legal (sub_choice s) = true) subs →
  map_get matchId (matches (run st (submissions sid matchId subs)).1) = Some m' →
  p_choice (player sd m') =
    default (p_choice (player sd m)) (last (sub_choice <$> subs)) ∧
  (run st (submissions sid matchId subs)).2 =
    (λ _, (sid, choice_recorded matchId)) <$> subs.
Proof.
  induction subs as [|s subs IH]; intros st socket m sd m' Hs Hm Hf Hsd Hl Hm'.
  - simpl in *. rewrite Hm in Hm'. by injection Hm' as ->.
  - apply Forall_cons in Hl as [Hc Hl]. simpl in Hm' |- *.
    rewrite (submit_choice_recorded _ _ _ _ _ _ _ _ Hs Hm Hsd Hc) in Hm' |- *.
    set (m1 := record_choice sd (sub_choice s) m) in *.
    set (st1 := with_matches st (map_set matchId m1 (matches st))) in *.
    assert (Hm1 : map_get matchId (matches st1) = Some m1)
      by apply map_get_set_eq.
    assert (Hf1 : m_finished m1 = false) by (by destruct sd).
    destruct (decided (sub_now s) m1 (m_a m1) && decided (sub_now s) m1 (m_b m1))
      eqn:Hd.
    + pose proof (maybeFinish_done (sub_now s) (sub_c1 s) (sub_c2 s) st1 m1
                    Hm1 Hf1 Hd) as Hgone.
      destruct (maybeFinish _ _ _ _ st1) as [st2 out2]. simpl in Hgone, Hm'.
      pose proof (run_submissions_gone subs st2 Hgone) as Hrun.
      destruct (run st2 _) as [st3 out3]. simpl in *. subst st3.
      congruence.
    + rewrite (maybeFinish_wait _ _ _ _ _ Hm1 Hf1 Hd) in Hm' |- *.
      simpl in Hm' |- *.
      assert (Hsd1 : side_of sid m1 = Some sd)
        by (subst m1; by rewrite side_of_record).
      destruct (run st1 _) as [st3 out3] eqn:Hrun. simpl in Hm'.
      destruct (IH st1 socket m1 sd m' Hs Hm1 Hf1 Hsd1 Hl) as [IH1 IH2].
      { by rewrite Hrun. }
      rewrite Hrun in IH2. simpl in IH2. subst out3. simpl.
      split; [|done]. rewrite IH1. subst m1. rewrite record_choice_choice.
      change (list_fmap Submission jsval sub_choice subs)
        with (sub_choice <$> subs).
      rewrite last_cons. by destruct (last (sub_choice <$> subs)).
Qed.
End submit.

(** C6. In a live match, for a participant [sid] writing to its side [sd]:
    - one legal submission records the choice on that side and is
      acknowledged with [choice_recorded]; the match is finalized by it
      exactly when both sides then have a decision, recorded or defaulted
      because the deadline has passed, and otherwise stays live with only
      that choice changed;
    - a finalize-check, from a submission or from the timer, leaves the
      match alone as long as a side has no decision;
    - after any run of legal submissions from [sid] that leaves the match
      live, the recorded decision of that side is the last one submitted,
      and each submission was acknowledged. *)
Theorem C6_last_write_wins (sid matchId : string) (st : State)
    (socket : Socket) (m : Match) (sd : Side) :
  sockets st !! sid = Some socket →
  map_get matchId (matches st) = Some m →
  m_finished m = false →
  side_of sid m = Some sd →
  (∀ c now c1 c2,
     is_legal c = true →
     let r := submit_choice sid matchId c now c1 c2 st in
     let m1 := record_choice sd c m in
     if decided now m1 (m_a m1) && decided now m1 (m_b m1)
     then map_get matchId (matches r.1) = None ∧
          ∃ results, r.2 = (sid, choice_recorded matchId) :: results
     else r.1 = with_matches st (map_set matchId m1 (matches st)) ∧
          r.2 = [(sid, choice_recorded matchId)]) ∧
  (∀ now c1 c2,
     decided now m (m_a m) && decided now m (m_b m) = false →
     maybeFinish matchId now c1 c2 st = (st, [])) ∧
  (∀ subs m' c,
     Forall (λ s, is_legal (sub_choice s) = true) subs →
     map_get matchId (matches (run st (submissions sid matchId subs)).1) = Some m' →
     last (sub_choice <$> subs) = Some c →
     p_choice (player sd m') = c ∧
     (run st (submissions sid matchId subs)).2 =
       (λ _, (sid, choice_recorded matchId)) <$> subs).
Proof.
  intros Hs Hm Hf Hsd. split; [|split].
  - intros c now c1 c2 Hc r m1. subst r.
    rewrite (submit_choice_recorded _ _ _ _ _ _ _ _ _ _ Hs Hm Hsd Hc).
    fold m1.
    set (st1 := with_matches st (map_set matchId m1 (matches st))).
    assert (Hm1 : map_get matchId (matches st1) = Some m1)
      by apply map_get_set_eq.
    assert (Hf1 : m_finished m1 = false) by (by destruct sd).
    destruct (decided now m1 (m_a m1) && decided now m1 (m_b m1)) eqn:Hd.
    + split; [by apply (maybeFinish_done _ _ _ _ _ _ Hm1 Hf1 Hd)|].
      simpl. by eexists.
    + by rewrite (maybeFinish_wait _ _ _ _ _ _ Hm1 Hf1 Hd).
  - intros now c1 c2 Hd. by apply (maybeFinish_wait _ _ _ _ _ _ Hm Hf Hd).
  - intros subs m' c Hl Hm' Hlast.
    destruct (run_submissions_live sid matchId subs st socket m sd m'
                Hs Hm Hf Hsd Hl Hm') as [H1 H2].
    split; [|done]. by rewrite H1, Hlast.
Qed.

Lemma C6_last_write_wins_witness :
  p_choice
    (player SideA
       (mkMatch "m1" (str "L") (mkPlayer "A" (str "Ann") steal)
          (mkPlayer "B" (str "Bob") null) 21001 false 0)) = steal ∧
  (run st_two_matched
     (submissions "A" "m1"
        [mkSubmission share 1500 "K1" "K2"; mkSubmission steal 1600 "K3" "K4"])).2
    = [("A", choice_recorded "m1"); ("A", choice_recorded "m1")].
Proof.
  destruct (C6_last_write_wins "A" "m1" st_two_matched
              (mkSocket (str "L") (str "Ann") [str "L"])
              (mkMatch "m1" (str "L") (mkPlayer "A" (str "Ann") null)
                 (mkPlayer "B" (str "Bob") null) 21001 false 0) SideA)
    as (_ & _ & Hrun); [reflexivity | reflexivity | reflexivity | reflexivity |].
  apply (Hrun
           [mkSubmission share 1500 "K1" "K2"; mkSubmission steal 1600 "K3" "K4"]
           _ steal).
  - repeat constructor.
  - reflexivity.
  - reflexivity.
Defined.

(** ** The disconnect handler *)

Section cancel.
Variables (sid : string) (socks : gmap string Socket).

(** [if (!w.has(loc)) w.set(loc, []); w.get(loc).push(x)] seen from a
    location [loc']. *)
Lemma push_lookup (w : gmap jsval (list string)) (loc loc' : jsval) (x : string) :
  default []
    ((<[loc := default []
               ((match w !! loc with
                 | Some _ => w
                 | None => <[loc := []]> w
                 end) !! loc) ++ [x]]>
        (match w !! loc with
         | Some _ => w
         | None => <[loc := []]> w
         end)) !! loc')
  = default [] (w !! loc') ++ (if decide (loc = loc') then [x] else []).
Proof.
  destruct (decide (loc = loc')) as [<-|Hne].
  - rewrite lookup_insert_eq. simpl.
    destruct (w !! loc) eqn:E; [by rewrite E|by rewrite lookup_insert_eq].
  - rewrite lookup_insert_ne by done.
    destruct (w !! loc) eqn:E; [by rewrite app_nil_r|].
    by rewrite lookup_insert_ne, app_nil_r.
Qed.

Lemma cancel_matches_spec ms : ∀ w,
  (cancel_matches sid socks ms w).1.1
    = filter (λ km, ¬ cancelled sid km.2) ms ∧
  (∀ loc, default [] ((cancel_matches sid socks ms w).1.2 !! loc)
          = default [] (w !! loc) ++ survivors sid socks ms loc) ∧
  (cancel_matches sid socks ms w).2
    = (λ lo, (lo.2, requeue "Opponent disconnected")) <$> requeued sid socks ms.
Proof.
  induction ms as [|[k m] ms IH]; intros w.
  - simpl. repeat split. intros loc. unfold survivors. simpl.
    by rewrite app_nil_r.
  - unfold survivors in *. cbn [cancel_matches requeued].
    destruct (m_finished m) eqn:Hf.
    { destruct (IH w) as (IH1 & IH2 & IH3).
      destruct (cancel_matches sid socks ms w) as [[ms' w'] out].
      cbn [fst snd] in *.
      rewrite filter_cons_True
        by (unfold cancelled; cbn [snd]; intros [? ?]; congruence).
      rewrite (decide_False (P := cancelled sid m))
        by (unfold cancelled; intros [? ?]; congruence).
      by rewrite IH1. }
    change (bool_decide (p_id (m_a m) = sid ∨ p_id (m_b m) = sid))
      with (bool_decide (participant sid m)).
    destruct (decide (participant sid m)) as [Hp|Hnp].
    + rewrite bool_decide_eq_true_2 by exact Hp.
      rewrite filter_cons_False by (unfold cancelled; cbn [snd]; tauto).
      fold (opponent sid m).
      rewrite (decide_True (P := cancelled sid m)) by (by split).
      destruct (socks !! opponent sid m) as [survivor|] eqn:Hlive.
      * match goal with
        | |- context [cancel_matches sid socks ms ?w1] =>
            destruct (IH w1) as (IH1 & IH2 & IH3);
            destruct (cancel_matches sid socks ms w1) as [[ms' w'] out]
        end.
        cbn [fst snd] in *. split; [done|]. split; [|by rewrite IH3].
        intros loc. rewrite IH2, push_lookup.
        rewrite filter_cons. cbn [fst].
        destruct (decide (m_locationId m = loc)); simpl.
        -- by rewrite <- app_assoc.
        -- by rewrite app_nil_r.
      * destruct (IH w) as (IH1 & IH2 & IH3).
        by destruct (cancel_matches sid socks ms w) as [[ms' w'] out].
    + rewrite bool_decide_eq_false_2 by exact Hnp.
      destruct (IH w) as (IH1 & IH2 & IH3).
      destruct (cancel_matches sid socks ms w) as [[ms' w'] out].
      cbn [fst snd] in *.
      rewrite filter_cons_True by (unfold cancelled; cbn [snd]; tauto).
      rewrite (decide_False (P := cancelled sid m))
        by (unfold cancelled; tauto).
      by rewrite IH1.
Qed.
End cancel.


(** ** The clean-up listeners *)

Section cleanup.
Variables (sid o : string).
Hypothesis Hne : o ≠ sid.

Lemma occurrences_app (x : string) (q1 q2 : list string) :
  occurrences x (q1 ++ q2) = (occurrences x q1 + occurrences x q2)%nat.
Proof. unfold occurrences. by rewrite filter_app, length_app. Qed.






End cleanup.

Section one_match.
Variables (sid : string) (socks : gmap string Socket).



End one_match.



(** ** What a disconnect leaves behind *)

(** C8 fails on the code: after ["A"] and ["B"] were matched and ["A"]
    disconnected, ["B"] was sent back to the queue without a clean-up
    listener; when ["B"] disconnects too, its id stays in the queue. *)
Lemma C8_survivor_left_in_queue :
  sockets st_survivor_left !! "B" = None ∧
  matches st_survivor_left = [] ∧
  waitingByLocation st_survivor_left !! str "L" = Some ["B"].
Proof. repeat split; reflexivity. Qed.

(** ** One place per socket id *)

(** C3 as stated fails: a socket that joins two locations in a row waits
    in both queues. *)
Lemma C3_counterexample : ¬ unique_queue st_joined_twice.
Proof.
  intros H.
  specialize (H "X" (str "L1") (str "L2") ["X"] ["X"] eq_refl eq_refl).
  assert (Hx : "X" ∈ ["X"]) by apply list_elem_of_here.
  specialize (H Hx Hx). discriminate H.
Qed.

Section counting.
Local Open Scope nat_scope.
Variable x : string.

Lemma occurrences_singleton (y : string) :
  occurrences x [y] = if decide (y = x) then 1 else 0.
Proof. unfold occurrences. rewrite filter_cons. by destruct (decide (y = x)). Qed.

Lemma occurrences_cons (y : string) (q : list string) :
  occurrences x (y :: q) = (if decide (y = x) then 1 else 0) + occurrences x q.
Proof. unfold occurrences. rewrite filter_cons. by destruct (decide (y = x)). Qed.

Lemma occurrences_elem_of (q : list string) : x ∈ q → 1 ≤ occurrences x q.
Proof.
  induction q as [|y q IH]; intros Hx.
  - by apply elem_of_nil in Hx.
  - rewrite occurrences_cons. apply elem_of_cons in Hx as [<-|Hx].
    + rewrite decide_True by done. lia.
    + specialize (IH Hx). lia.
Qed.

Lemma occurrences_remove_first_le (sid : string) (q : list string) :
  occurrences x (remove_first sid q) ≤ occurrences x q.
Proof.
  induction q as [|y q IH]; simpl; [done|].
  destruct (decide (sid = y)); rewrite !occurrences_cons; lia.
Qed.

Lemma queue_occ_insert_None (w : gmap jsval (list string)) loc q :
  w !! loc = None →
  queue_occ x (<[loc := q]> w) = occurrences x q + queue_occ x w.
Proof.
  intros H. unfold queue_occ. rewrite map_fold_insert_L; [done| |done].
  intros. lia.
Qed.

Lemma queue_occ_lookup (w : gmap jsval (list string)) loc q :
  w !! loc = Some q →
  queue_occ x w = occurrences x q + queue_occ x (delete loc w).
Proof.
  intros H. unfold queue_occ.
  rewrite (map_fold_delete_L _ _ loc q w); [done| |done].
  intros. lia.
Qed.

Lemma queue_occ_insert (w : gmap jsval (list string)) loc q :
  queue_occ x (<[loc := q]> w) + occurrences x (default [] (w !! loc))
  = occurrences x q + queue_occ x w.
Proof.
  destruct (w !! loc) as [q0|] eqn:E; simpl.
  - rewrite <- insert_delete_eq.
    rewrite queue_occ_insert_None by apply lookup_delete_eq.
    rewrite (queue_occ_lookup w loc q0 E). lia.
  - rewrite queue_occ_insert_None by done. unfold occurrences. simpl. lia.
Qed.

(** [if (!w.has(loc)) w.set(loc, []); w.get(loc).push(y)] adds one [y]. *)
Lemma queue_occ_push (w : gmap jsval (list string)) loc (y : string) :
  queue_occ x
    (<[loc := default []
               ((match w !! loc with
                 | Some _ => w
                 | None => <[loc := []]> w
                 end) !! loc) ++ [y]]>
        (match w !! loc with
         | Some _ => w
         | None => <[loc := []]> w
         end))
  = queue_occ x w + (if decide (y = x) then 1 else 0).
Proof.
  destruct (w !! loc) as [q0|] eqn:E.
  - pose proof (queue_occ_insert w loc (q0 ++ [y])) as H.
    rewrite !E in *. simpl in *.
    rewrite occurrences_app, occurrences_singleton in H. lia.
  - rewrite lookup_insert_eq, insert_insert_eq. simpl.
    rewrite queue_occ_insert_None by done.
    rewrite occurrences_singleton. lia.
Qed.

Lemma match_occ_set_le k m (l : list (string * Match)) :
  match_occ x (map_set k m l) ≤ match_occ x l + sides x m.
Proof.
  unfold match_occ.
  induction l as [|[k' m'] l IH]; simpl; [lia|].
  destruct (decide (k = k')); simpl; lia.
Qed.

Lemma match_occ_set_same k m m0 (l : list (string * Match)) :
  map_get k l = Some m0 →
  sides x m = sides x m0 →
  match_occ x (map_set k m l) = match_occ x l.
Proof.
  unfold match_occ. intros Hg Hs.
  induction l as [|[k' m'] l IH]; simpl in *; [done|].
  destruct (decide (k = k')); simpl.
  - injection Hg as ->. lia.
  - rewrite IH by done. lia.
Qed.

Lemma match_occ_delete_le k (l : list (string * Match)) :
  match_occ x (map_delete k l) ≤ match_occ x l.
Proof.
  unfold match_occ.
  induction l as [|[k' m'] l IH]; simpl; [lia|].
  destruct (decide (k = k')); simpl; lia.
Qed.

Lemma sides_participant m : participant x m → 1 ≤ sides x m.
Proof.
  unfold participant, sides. intros [H|H]; rewrite H.
  - rewrite decide_True by done. lia.
  - rewrite (decide_True (P := x = x)) by done. lia.
Qed.

Lemma sides_opponent sid m :
  participant sid m →
  (if decide (opponent sid m = x) then 1 else 0) ≤ sides x m.
Proof.
  unfold opponent, sides, participant. intros Hp.
  destruct (decide (p_id (m_a m) = sid)) as [Ha|Ha];
    destruct (decide (p_id (m_a m) = x));
    destruct (decide (p_id (m_b m) = x)); lia.
Qed.

Lemma match_occ_two (ms : list (string * Match)) i j km1 km2 :
  i < j →
  ms !! i = Some km1 →
  ms !! j = Some km2 →
  sides x km1.2 + sides x km2.2 ≤ match_occ x ms.
Proof.
  intros Hij H1 H2. unfold match_occ.
  rewrite <- (take_drop_middle ms i km1 H1).
  rewrite sum_list_with_app. simpl.
  assert (Hin : km2 ∈ drop (S i) ms).
  { apply (list_elem_of_lookup_2 _ (j - S i)).
    rewrite lookup_drop. by replace (S i + (j - S i)) with j by lia. }
  pose proof (sum_list_with_in km2 (λ km, sides x km.2) _ Hin) as Hle.
  simpl in Hle. lia.
Qed.
End counting.

Section occ_steps.
Local Open Scope nat_scope.
Variable x : string.

Lemma maybeFinish_occ matchId now c1 c2 st :
  occ x (maybeFinish matchId now c1 c2 st).1 ≤ occ x st.
Proof.
  unfold maybeFinish.
  destruct (map_get matchId (matches st)) as [m|]; [|done].
  destruct (m_finished m); [done|].
  destruct (truthy _ && truthy _); [|done].
  unfold occ. simpl.
  pose proof (match_occ_delete_le x matchId (matches st)). lia.
Qed.

Lemma submit_choice_occ sid matchId c now c1 c2 st :
  occ x (submit_choice sid matchId c now c1 c2 st).1 ≤ occ x st.
Proof.
  unfold submit_choice.
  destruct (sockets st !! sid) as [socket|]; [|done].
  destruct (map_get matchId (matches st)) as [m|] eqn:Hm; [|done].
  destruct (is_legal c); simpl; [|done].
  assert (Hrec : ∀ m', sides x m' = sides x m →
    occ x (maybeFinish matchId now c1 c2
             (mkState (sockets st) (waitingByLocation st)
                (map_set matchId m' (matches st)) (timers st)
                (next_timer st))).1 ≤ occ x st).
  { intros m' Hsides.
    etransitivity; [apply maybeFinish_occ|].
    unfold occ. simpl. by rewrite (match_occ_set_same x _ _ m). }
  destruct (decide (sid = p_id (m_a m))).
  - specialize (Hrec (set_a m (set_choice (m_a m) c)) eq_refl).
    by destruct (maybeFinish _ _ _ _ _).
  - destruct (decide (sid = p_id (m_b m))); [|done].
    specialize (Hrec (set_b m (set_choice (m_b m) c)) eq_refl).
    by destruct (maybeFinish _ _ _ _ _).
Qed.

Lemma timeout_occ h now c1 c2 st :
  occ x (timeout h now c1 c2 st).1 ≤ occ x st.
Proof.
  unfold timeout.
  destruct (timers st !! h) as [[matchId due]|]; [|done].
  destruct (due <=? now)%Z; [|done].
  etransitivity; [apply maybeFinish_occ|]. done.
Qed.

Lemma cancel_matches_occ sid socks ms : ∀ w,
  queue_occ x (cancel_matches sid socks ms w).1.2 +
  match_occ x (cancel_matches sid socks ms w).1.1
  ≤ queue_occ x w + match_occ x ms.
Proof.
  induction ms as [|[k m] ms IH]; intros w; [simpl; lia|].
  cbn [cancel_matches].
  change (match_occ x ((k, m) :: ms)) with (sides x m + match_occ x ms).
  destruct (m_finished m).
  { specialize (IH w).
    destruct (cancel_matches sid socks ms w) as [[ms' w'] out].
    cbn [fst snd] in *.
    change (match_occ x ((k, m) :: ms')) with (sides x m + match_occ x ms').
    lia. }
  change (bool_decide (p_id (m_a m) = sid ∨ p_id (m_b m) = sid))
    with (bool_decide (participant sid m)).
  destruct (decide (participant sid m)) as [Hp|Hnp].
  - rewrite bool_decide_eq_true_2 by exact Hp.
    fold (opponent sid m).
    destruct (socks !! opponent sid m) as [survivor|].
    + match goal with
      | |- context [cancel_matches sid socks ms ?w1] =>
          specialize (IH w1);
          pose proof (queue_occ_push x w (m_locationId m) (opponent sid m)) as Hpush;
          destruct (cancel_matches sid socks ms w1) as [[ms' w'] out]
      end.
      cbn [fst snd] in *.
      pose proof (sides_opponent x sid m Hp). lia.
    + specialize (IH w).
      destruct (cancel_matches sid socks ms w) as [[ms' w'] out].
      cbn [fst snd] in *. lia.
  - rewrite bool_decide_eq_false_2 by exact Hnp.
    specialize (IH w).
    destruct (cancel_matches sid socks ms w) as [[ms' w'] out].
    cbn [fst snd] in *.
    change (match_occ x ((k, m) :: ms')) with (sides x m + match_occ x ms').
    lia.
Qed.

Lemma cleanup_listener_occ sid (w : gmap jsval (list string)) loc :
  queue_occ x (cleanup_listener sid w loc) ≤ queue_occ x w.
Proof.
  unfold cleanup_listener. destruct (w !! loc) as [q|] eqn:E; [|done].
  pose proof (queue_occ_insert x w loc (remove_first sid q)) as H.
  rewrite E in H. simpl in H.
  pose proof (occurrences_remove_first_le x sid q). lia.
Qed.

Lemma cleanups_occ sid (ls : list jsval) : ∀ w,
  queue_occ x (foldl (cleanup_listener sid) w ls) ≤ queue_occ x w.
Proof.
  induction ls as [|l ls IH]; intros w; simpl; [done|].
  etransitivity; [apply IH|apply cleanup_listener_occ].
Qed.

Lemma disconnect_occ sid st : occ x (disconnect sid st).1 ≤ occ x st.
Proof.
  unfold disconnect. destruct (sockets st !! sid) as [socket|]; [|done].
  pose proof (cancel_matches_occ sid (delete sid (sockets st)) (matches st)
                (waitingByLocation st)) as H.
  destruct (cancel_matches _ _ _ _) as [[ms w] out]. unfold occ. simpl in *.
  pose proof (cleanups_occ sid (s_cleanups socket) w). lia.
Qed.

Lemma join_location_occ sid loc name uuid now st :
  occ x (join_location sid loc name uuid now st).1
  ≤ occ x st + (if decide (sid = x) then 1 else 0).
Proof.
  unfold join_location.
  destruct (sockets st !! sid) as [socket|]; [|simpl; lia].
  destruct (waitingByLocation st !! loc) as [[|head rest]|] eqn:Hq; simpl.
  - rewrite Hq. unfold occ. simpl.
    pose proof (queue_occ_insert x (waitingByLocation st) loc [sid]) as H.
    rewrite Hq, occurrences_singleton in H. simpl in H.
    change (occurrences x []) with 0 in H. lia.
  - rewrite Hq. simpl.
    destruct (_ !! head) as [partner|]; unfold occ; simpl.
    + pose proof (queue_occ_insert x (waitingByLocation st) loc rest) as H.
      rewrite Hq in H. simpl in H. rewrite occurrences_cons in H.
      pose proof (match_occ_set_le x uuid
                    (mkMatch uuid (s_locationId partner)
                       (mkPlayer head (s_playerName partner) null)
                       (mkPlayer sid (js_or name (str "Player")) null)
                       (now + DECISION_MS)%Z false (next_timer st))
                    (matches st)) as Hm.
      unfold sides in Hm at 1. simpl in Hm. lia.
    + pose proof (queue_occ_insert x (waitingByLocation st) loc (rest ++ [sid]))
        as H.
      rewrite Hq in H. simpl in H.
      rewrite occurrences_cons, occurrences_app, occurrences_singleton in H.
      lia.
  - rewrite lookup_insert_eq. unfold occ. simpl.
    rewrite insert_insert_eq, queue_occ_insert_None by done.
    rewrite occurrences_singleton. lia.
Qed.
End occ_steps.

Lemma occ_bound_step (st : State) (i : Input) :
  allowed st i →
  (∀ x, (occ x st ≤ 1)%nat) →
  ∀ x, (occ x (step st i).1 ≤ 1)%nat.
Proof.
  intros Ha Hinv x. specialize (Hinv x).
  destruct i as [sid|sid loc name uuid now|sid mid c now c1 c2|sid|h now c1 c2];
    simpl.
  - done.
  - pose proof (join_location_occ x sid loc name uuid now st) as H.
    destruct (decide (sid = x)) as [->|]; [|lia].
    destruct Ha as [Hq Hm]. unfold occ in H at 2. rewrite Hq, Hm in H. lia.
  - pose proof (submit_choice_occ x sid mid c now c1 c2 st). lia.
  - pose proof (disconnect_occ x sid st). lia.
  - pose proof (timeout_occ x h now c1 c2 st). lia.
Qed.

Lemma reachable_occ_bound (st : State) :
  reachable st → ∀ x, (occ x st ≤ 1)%nat.
Proof.
  induction 1 as [|st i Hr IH Ha].
  - intros x. unfold occ, queue_occ, initial. simpl.
    rewrite map_fold_empty. simpl. lia.
  - by apply occ_bound_step.
Qed.

Lemma occ_bound_unique_queue (st : State) :
  (∀ x, (occ x st ≤ 1)%nat) → unique_queue st.
Proof.
  intros Hinv x loc1 loc2 q1 q2 H1 H2 Hx1 Hx2.
  destruct (decide (loc1 = loc2)) as [|Hne]; [done|exfalso].
  specialize (Hinv x). unfold occ in Hinv.
  rewrite (queue_occ_lookup x _ loc1 q1 H1) in Hinv.
  rewrite (queue_occ_lookup x (delete loc1 _) loc2 q2) in Hinv
    by (by rewrite lookup_delete_ne).
  pose proof (occurrences_elem_of x q1 Hx1).
  pose proof (occurrences_elem_of x q2 Hx2). lia.
Qed.

Lemma occ_bound_unique_match (st : State) :
  (∀ x, (occ x st ≤ 1)%nat) → unique_match st.
Proof.
  intros Hinv x i j km1 km2 H1 H2 Hp1 Hp2.
  specialize (Hinv x). unfold occ in Hinv.
  pose proof (sides_participant x _ Hp1).
  pose proof (sides_participant x _ Hp2).
  destruct (Nat.lt_trichotomy i j) as [Hlt|[Heq|Hgt]]; [|done|].
  - pose proof (match_occ_two x _ i j km1 km2 Hlt H1 H2). lia.
  - pose proof (match_occ_two x _ j i km2 km1 Hgt H2 H1). lia.
Qed.

Lemma reachable_run (inputs : list Input) : ∀ st,
  reachable st → run_allowed st inputs → reachable (run st inputs).1.
Proof.
  induction inputs as [|i rest IH]; intros st Hr Ha; [done|].
  destruct Ha as [Hi Hrest]. simpl.
  specialize (IH (step st i).1 (reachable_step st i Hr Hi) Hrest).
  destruct (step st i) as [st1 out1]. simpl in *.
  by destruct (run st1 rest) as [st2 out2].
Qed.

(** C3, as the code has it. In every state reached from the initial one by
    connections, [join_location], [submit_choice], disconnects and timer
    callbacks, in which a socket sends [join_location] only while it waits
    in no queue and is in no live match, no socket id is in two queues and
    no socket id is a participant of two live matches. *)
Theorem C3_one_place_per_socket (st : State) :
  reachable st → unique_queue st ∧ unique_match st.
Proof.
  intros Hr. pose proof (reachable_occ_bound st Hr) as Hinv.
  split; [by apply occ_bound_unique_queue|by apply occ_bound_unique_match].
Qed.

Lemma C3_one_place_per_socket_witness :
  unique_queue st_two_matched ∧ unique_match st_two_matched.
Proof.
  apply C3_one_place_per_socket. unfold st_two_matched.
  apply reachable_run; [apply reachable_initial|].
  vm_compute. repeat split.
Defined.

(** * Further properties of the server *)

(** ** Prizes *)

Lemma tokened_code (s : string) : tokened (str ("P-" +:+ s)) = true.
Proof. reflexivity. Qed.

(** X1. Whatever the two values are, also values that are no decision, side
    A is given a prize code exactly when side B shares and side A's value is
    a decision, and the same with the sides swapped: a prize goes to a side
    exactly when its opponent shares. *)
Theorem prize_iff_opponent_shares (c1 c2 : string) (ca cb : jsval) :
  tokened (aPrize (computeOutcomeAndPrizes c1 c2 ca cb))
    = bool_decide (cb = share ∧ (ca = share ∨ ca = steal)) ∧
  tokened (bPrize (computeOutcomeAndPrizes c1 c2 ca cb))
    = bool_decide (ca = share ∧ (cb = share ∨ cb = steal)).
Proof.
  unfold computeOutcomeAndPrizes, share, steal.
  repeat case_decide; cbn [aPrize bPrize]; rewrite ?tokened_code;
    change (tokened null) with false;
    split; symmetry;
    first [ apply bool_decide_eq_true_2; intuition congruence
          | apply bool_decide_eq_false_2; intuition congruence ].
Qed.

(** ** More facts about the [matches] Map *)

Section map_more.
Implicit Types (k : string) (v : Match) (l : list (string * Match)).

Lemma map_get_set_ne k k' v l : k ≠ k' → map_get k' (map_set k v l) = map_get k' l.
Proof.
  intros Hne. induction l as [|[k0 v0] l IH]; simpl.
  - by rewrite decide_False.
  - destruct (decide (k = k0)) as [<-|]; simpl.
    + by rewrite !decide_False.
    + destruct (decide (k' = k0)); [done|apply IH].
Qed.

Lemma map_get_delete_ne k k' l : k ≠ k' → map_get k' (map_delete k l) = map_get k' l.
Proof.
  intros Hne. induction l as [|[k0 v0] l IH]; simpl; [done|].
  destruct (decide (k = k0)) as [<-|]; simpl.
  - by rewrite decide_False.
  - destruct (decide (k' = k0)); [done|apply IH].
Qed.

Lemma map_delete_filter k l : map_delete k l = filter (λ km, km.1 ≠ k) l.
Proof.
  induction l as [|[k0 v0] l IH]; simpl; [done|].
  rewrite filter_cons. simpl.
  destruct (decide (k = k0)) as [<-|Hne].
  - by rewrite decide_False by tauto.
  - rewrite decide_True by congruence. by rewrite IH.
Qed.

Lemma map_get_elem_of k v l : map_get k l = Some v → (k, v) ∈ l.
Proof.
  induction l as [|[k0 v0] l IH]; simpl; [done|].
  destruct (decide (k = k0)) as [<-|].
  - intros [= ->]. apply list_elem_of_here.
  - intros H. apply list_elem_of_further. by apply IH.
Qed.

Lemma elem_of_map_get k v l : NoDup l.*1 → (k, v) ∈ l → map_get k l = Some v.
Proof.
  induction l as [|[k0 v0] l IH]; simpl; intros Hnd Hin.
  - by apply elem_of_nil in Hin.
  - apply NoDup_cons in Hnd as [Hk0 Hnd].
    apply elem_of_cons in Hin as [[= <- <-]|Hin].
    + by rewrite decide_True.
    + rewrite decide_False; [by apply IH|].
      intros <-. apply Hk0. apply list_elem_of_fmap. by exists (k, v).
Qed.

Lemma elem_of_map_set km k v l : km ∈ map_set k v l → km = (k, v) ∨ km ∈ l.
Proof.
  induction l as [|[k0 v0] l IH]; simpl.
  - intros H. apply list_elem_of_singleton in H. by left.
  - destruct (decide (k = k0)) as [<-|].
    + intros H. apply elem_of_cons in H as [->|H]; [by left|].
      right. by apply list_elem_of_further.
    + intros H. apply elem_of_cons in H as [->|H].
      * right. apply list_elem_of_here.
      * destruct (IH H) as [->|H']; [by left|].
        right. by apply list_elem_of_further.
Qed.

Lemma NoDup_map_set k v l : NoDup l.*1 → NoDup (map_set k v l).*1.
Proof.
  induction l as [|[k0 v0] l IH]; simpl; intros Hnd.
  - apply NoDup_singleton.
  - apply NoDup_cons in Hnd as [Hk0 Hnd].
    destruct (decide (k = k0)) as [<-|Hne]; simpl.
    + by apply NoDup_cons.
    + apply NoDup_cons. split; [|by apply IH].
      intros Hin. apply list_elem_of_fmap in Hin as ([k1 v1] & -> & Hin).
      apply elem_of_map_set in Hin as [[= -> ->]|Hin]; [done|].
      apply Hk0. apply list_elem_of_fmap. by exists (k1, v1).
Qed.

Lemma NoDup_filter_keys (P : string * Match → Prop) `{!∀ km, Decision (P km)} l :
  NoDup l.*1 → NoDup (filter P l).*1.
Proof.
  intros Hnd. eapply sublist_NoDup; [exact Hnd|].
  apply fmap_sublist, sublist_filter.
Qed.
End map_more.

(** ** Finalize-check *)

(** What [maybeFinish] does to a live match whose two sides are decided. *)
Lemma maybeFinish_finalize matchId now c1 c2 st m :
  map_get matchId (matches st) = Some m →
  m_finished m = false →
  decided now m (m_a m) && decided now m (m_b m) = true →
  maybeFinish matchId now c1 c2 st =
    let ca := js_or (p_choice (m_a m))
                (if now >? m_deadline m then str "steal" else null) in
    let cb := js_or (p_choice (m_b m))
                (if now >? m_deadline m then str "steal" else null) in
    let pz := computeOutcomeAndPrizes c1 c2 ca cb in
    (mkState (sockets st) (waitingByLocation st)
       (map_delete matchId (matches st))
       (delete (m_timer m) (timers st)) (next_timer st),
     emit_if_live (sockets st) (p_id (m_a m))
       (result (m_id m) ca cb (js_or (aPrize pz) null)) ++
     emit_if_live (sockets st) (p_id (m_b m))
       (result (m_id m) cb ca (js_or (bPrize pz) null))).
Proof.
  intros Hm Hf Hd. unfold maybeFinish. rewrite Hm, Hf.
  rewrite !truthy_js_or_default. unfold decided in Hd. by rewrite Hd.
Qed.

(** X2. A finalize-check either does nothing at all, or takes the match out
    of the table; once the match is out, every later finalize-check for that
    id, at any time, does nothing. So a late timer or a repeated call never
    sends the results a second time. *)
Theorem maybeFinish_at_most_once (matchId : string) (now : Z) (c1 c2 : string)
    (st : State) :
  maybeFinish matchId now c1 c2 st = (st, []) ∨
  (map_get matchId (matches (maybeFinish matchId now c1 c2 st).1) = None ∧
   ∀ now' c1' c2',
     maybeFinish matchId now' c1' c2' (maybeFinish matchId now c1 c2 st).1
     = ((maybeFinish matchId now c1 c2 st).1, [])).
Proof.
  destruct (map_get matchId (matches st)) as [m|] eqn:Hm.
  - destruct (m_finished m) eqn:Hf.
    { left. unfold maybeFinish. by rewrite Hm, Hf. }
    destruct (decided now m (m_a m) && decided now m (m_b m)) eqn:Hd.
    + right.
      pose proof (maybeFinish_done matchId now c1 c2 st m Hm Hf Hd) as Hgone.
      split; [done|]. intros. by apply maybeFinish_gone.
    + left. by apply (maybeFinish_wait matchId now c1 c2 st m).
  - left. by apply maybeFinish_gone.
Qed.

(** ** [submit_choice]: errors and what it leaves alone *)

(** X3. A [submit_choice] with a legal choice from a connected socket that
    names no live match, or names a match that the sender is on neither side
    of, changes nothing; the sender alone is sent one [error], ['Match not
    found'] in the first case and ['Not part of this match'] in the second. *)
Theorem submit_choice_rejected (sid matchId : string) (choice : jsval)
    (now : Z) (c1 c2 : string) (st : State) (socket : Socket) :
  sockets st !! sid = Some socket →
  is_legal choice = true →
  (map_get matchId (matches st) = None →
   submit_choice sid matchId choice now c1 c2 st
   = (st, [(sid, error "Match not found")])) ∧
  (∀ m, map_get matchId (matches st) = Some m →
        ¬ participant sid m →
        submit_choice sid matchId choice now c1 c2 st
        = (st, [(sid, error "Not part of this match")])).
Proof.
  intros Hs Hc. unfold submit_choice. rewrite Hs. split.
  - by intros ->.
  - intros m -> Hp. rewrite Hc. simpl. unfold participant in Hp.
    rewrite !decide_False by (intros ->; tauto). done.
Qed.

Lemma submit_choice_rejected_witness :
  submit_choice "X" "m1" share 1500 "K1" "K2" st_two_matched
  = (st_two_matched, [("X", error "Not part of this match")]).
Proof.
  destruct (submit_choice_rejected "X" "m1" share 1500 "K1" "K2" st_two_matched
              (mkSocket undefined undefined [])) as [_ H];
    [reflexivity | reflexivity |].
  apply (H (mkMatch "m1" (str "L") (mkPlayer "A" (str "Ann") null)
              (mkPlayer "B" (str "Bob") null) 21001 false 0)).
  - reflexivity.
  - intros [H1|H1]; discriminate H1.
Defined.

Lemma maybeFinish_frame matchId now c1 c2 st :
  sockets (maybeFinish matchId now c1 c2 st).1 = sockets st ∧
  waitingByLocation (maybeFinish matchId now c1 c2 st).1 = waitingByLocation st ∧
  next_timer (maybeFinish matchId now c1 c2 st).1 = next_timer st ∧
  (∀ k, k ≠ matchId →
        map_get k (matches (maybeFinish matchId now c1 c2 st).1)
        = map_get k (matches st)).
Proof.
  unfold maybeFinish.
  destruct (map_get matchId (matches st)) as [m|]; [|done].
  destruct (m_finished m); [done|].
  destruct (truthy _ && truthy _); [|done].
  simpl. repeat split. intros k Hk. by apply map_get_delete_ne.
Qed.

(** X4. Whatever a [submit_choice] carries, it leaves the registry, every
    queue and every match other than the one it names as they were; and so
    does a timer callback, for the match its timer was armed for. *)
Theorem submit_and_timer_frame (st : State) :
  (∀ sid matchId choice now c1 c2,
     let st' := (submit_choice sid matchId choice now c1 c2 st).1 in
     sockets st' = sockets st ∧
     waitingByLocation st' = waitingByLocation st ∧
     ∀ k, k ≠ matchId → map_get k (matches st') = map_get k (matches st)) ∧
  (∀ h now c1 c2,
     let st' := (timeout h now c1 c2 st).1 in
     sockets st' = sockets st ∧
     waitingByLocation st' = waitingByLocation st ∧
     ∀ k, (∀ due, timers st !! h ≠ Some (k, due)) →
          map_get k (matches st') = map_get k (matches st)).
Proof.
  split.
  - intros sid matchId choice now c1 c2 st'. subst st'.
    unfold submit_choice.
    destruct (sockets st !! sid) as [socket|]; [|done].
    destruct (map_get matchId (matches st)) as [m|] eqn:Hm; [|done].
    destruct (is_legal choice); simpl; [|done].
    assert (Hrec : ∀ m',
      let r := maybeFinish matchId now c1 c2
                 (mkState (sockets st) (waitingByLocation st)
                    (map_set matchId m' (matches st)) (timers st)
                    (next_timer st)) in
      sockets r.1 = sockets st ∧ waitingByLocation r.1 = waitingByLocation st ∧
      ∀ k, k ≠ matchId → map_get k (matches r.1) = map_get k (matches st)).
    { intros m' r. subst r.
      destruct (maybeFinish_frame matchId now c1 c2
                  (mkState (sockets st) (waitingByLocation st)
                     (map_set matchId m' (matches st)) (timers st)
                     (next_timer st))) as (H1 & H2 & _ & H4).
      repeat split; [done|done|].
      intros k Hk. rewrite (H4 k Hk). simpl. apply map_get_set_ne. congruence. }
    destruct (decide (sid = p_id (m_a m))).
    + specialize (Hrec (set_a m (set_choice (m_a m) choice))).
      by destruct (maybeFinish _ _ _ _ _).
    + destruct (decide (sid = p_id (m_b m))); [|done].
      specialize (Hrec (set_b m (set_choice (m_b m) choice))).
      by destruct (maybeFinish _ _ _ _ _).
  - intros h now c1 c2 st'. subst st'. unfold timeout.
    destruct (timers st !! h) as [[matchId due]|] eqn:Ht; [|done].
    destruct (due <=? now); [|done].
    destruct (maybeFinish_frame matchId now c1 c2
                (mkState (sockets st) (waitingByLocation st) (matches st)
                   (delete h (timers st)) (next_timer st)))
      as (H1 & H2 & _ & H4).
    repeat split; [done|done|].
    intros k Hk. apply H4. intros ->. by apply (Hk due).
Qed.

(** ** A round played to the end *)

(** X5. In a live match between two different connected sockets where side
    B has no decision yet, a legal choice from side A before the deadline
    followed by a legal choice from side B ends the round: each is
    acknowledged, then side A is sent [result] with its own choice, B's
    choice and its prize code, side B the mirrored one, the prizes being
    those of the resolver for the two submitted choices; the match is gone,
    the queues and the registry are as they were. *)
Theorem two_submissions_resolve (st : State) (matchId : string) (m : Match)
    (sa sb : Socket) (ca cb : jsval) (t1 t2 : Z) (c1 c2 c3 c4 : string) :
  map_get matchId (matches st) = Some m →
  m_finished m = false →
  p_id (m_a m) ≠ p_id (m_b m) →
  sockets st !! p_id (m_a m) = Some sa →
  sockets st !! p_id (m_b m) = Some sb →
  truthy (p_choice (m_b m)) = false →
  is_legal ca = true →
  is_legal cb = true →
  t1 ≤ m_deadline m →
  let r := run st [SubmitChoice (p_id (m_a m)) matchId ca t1 c1 c2;
                   SubmitChoice (p_id (m_b m)) matchId cb t2 c3 c4] in
  let pz := computeOutcomeAndPrizes c3 c4 ca cb in
  r.2 = [(p_id (m_a m), choice_recorded matchId);
         (p_id (m_b m), choice_recorded matchId);
         (p_id (m_a m), result (m_id m) ca cb (js_or (aPrize pz) null));
         (p_id (m_b m), result (m_id m) cb ca (js_or (bPrize pz) null))] ∧
  map_get matchId (matches r.1) = None ∧
  waitingByLocation r.1 = waitingByLocation st ∧
  sockets r.1 = sockets st.
Proof.
  intros Hm Hf Hab Hsa Hsb Hb Hca Hcb Ht1 r pz. subst r. simpl.
  assert (HsdA : side_of (p_id (m_a m)) m = Some SideA).
  { unfold side_of. by rewrite decide_True. }
  rewrite (submit_choice_recorded _ _ _ _ _ _ _ _ _ _ Hsa Hm HsdA Hca).
  set (m1 := record_choice SideA ca m).
  set (st1 := with_matches st (map_set matchId m1 (matches st))).
  assert (Hm1 : map_get matchId (matches st1) = Some m1) by apply map_get_set_eq.
  assert (Hd1 : decided t1 m1 (m_a m1) && decided t1 m1 (m_b m1) = false).
  { unfold decided. simpl. rewrite Hb. simpl.
    destruct (Z.gtb_spec t1 (m_deadline m)); [lia|apply andb_false_r]. }
  rewrite (maybeFinish_wait _ _ _ _ _ _ Hm1 Hf Hd1). simpl.
  assert (HsdB : side_of (p_id (m_b m)) m1 = Some SideB).
  { unfold side_of. simpl. rewrite decide_False by congruence.
    by rewrite decide_True. }
  rewrite (submit_choice_recorded _ _ _ _ _ _ st1 sb m1 SideB Hsb Hm1 HsdB Hcb).
  set (m2 := record_choice SideB cb m1).
  set (st2 := with_matches st1 (map_set matchId m2 (matches st1))).
  assert (Hm2 : map_get matchId (matches st2) = Some m2) by apply map_get_set_eq.
  assert (Hd2 : decided t2 m2 (m_a m2) && decided t2 m2 (m_b m2) = true).
  { unfold decided. simpl.
    by rewrite (is_legal_truthy _ Hca), (is_legal_truthy _ Hcb). }
  rewrite (maybeFinish_finalize _ _ _ _ _ _ Hm2 Hf Hd2). simpl.
  rewrite (js_or_legal _ _ Hca), (js_or_legal _ _ Hcb).
  unfold emit_if_live. rewrite Hsa, Hsb. simpl.
  repeat split. apply map_get_delete_eq.
Qed.

Lemma two_submissions_resolve_witness :
  (run st_two_matched
     [SubmitChoice "A" "m1" share 1500 "K1" "K2";
      SubmitChoice "B" "m1" steal 1600 "K3" "K4"]).2
  = [("A", choice_recorded "m1"); ("B", choice_recorded "m1");
     ("A", result "m1" share steal null);
     ("B", result "m1" steal share (str "P-K3-BOTH"))].
Proof.
  destruct (two_submissions_resolve st_two_matched "m1"
              (mkMatch "m1" (str "L") (mkPlayer "A" (str "Ann") null)
                 (mkPlayer "B" (str "Bob") null) 21001 false 0)
              (mkSocket (str "L") (str "Ann") [str "L"])
              (mkSocket (str "L") (str "Bob") [])
              share steal 1500 1600 "K1" "K2" "K3" "K4") as [H _];
    [reflexivity | reflexivity | discriminate | reflexivity | reflexivity
    | reflexivity | reflexivity | reflexivity | simpl; lia |].
  exact H.
Defined.

(** ** The match table and its timers, over all runs *)

Section table.
Local Open Scope nat_scope.

Lemma table_ok_same st st' :
  matches st' = matches st →
  timers st' = timers st →
  next_timer st' = next_timer st →
  table_ok st → table_ok st'.
Proof.
  unfold table_ok, match_ok. intros -> -> ->. done.
Qed.

Lemma table_ok_elem st k m :
  table_ok st → map_get k (matches st) = Some m → match_ok st (k, m).
Proof.
  intros (_ & Hall & _) Hm. apply map_get_elem_of in Hm.
  by eapply Forall_forall in Hall.
Qed.

Lemma table_ok_timer_owner st km h due k :
  table_ok st → km ∈ matches st → m_timer km.2 = h →
  timers st !! h = Some (k, due) →
  km.1 = k ∧ map_get k (matches st) = Some km.2 ∧ due = (m_deadline km.2 + 250)%Z.
Proof.
  intros (Hnd & Hall & _) Hin <- Ht.
  eapply Forall_forall in Hall; [|exact Hin].
  destruct Hall as (_ & _ & H3). rewrite H3 in Ht. injection Ht as <- <-.
  split; [done|]. split; [|done].
  apply elem_of_map_get; [done|]. by destruct km.
Qed.

Lemma table_ok_createMatch idA sockA idB sockB uuid now st :
  table_ok st → table_ok (createMatch idA sockA idB sockB uuid now st).1.
Proof.
  intros (Hnd & Hall & Hlt). unfold createMatch, table_ok. simpl.
  split; [by apply NoDup_map_set|]. split.
  - apply Forall_forall. intros km Hin.
    apply elem_of_map_set in Hin as [->|Hin].
    + unfold match_ok. simpl. rewrite lookup_insert_eq.
      repeat split. do 2 f_equal. lia.
    + eapply Forall_forall in Hall; [|exact Hin].
      destruct Hall as (H1 & H2 & H3). unfold match_ok. simpl.
      repeat split; [done..|].
      rewrite lookup_insert_ne; [done|]. intros Heq.
      assert (m_timer km.2 < next_timer st) by (apply Hlt; by rewrite H3).
      lia.
  - intros h Hh. apply lookup_insert_is_Some' in Hh as [<-|Hh]; [lia|].
    specialize (Hlt h Hh). lia.
Qed.

Lemma table_ok_maybeFinish matchId now c1 c2 st :
  table_ok st → table_ok (maybeFinish matchId now c1 c2 st).1.
Proof.
  intros Hok. unfold maybeFinish.
  destruct (map_get matchId (matches st)) as [m|] eqn:Hm; [|done].
  destruct (m_finished m); [done|].
  destruct (truthy _ && truthy _); [|done]. simpl.
  pose proof (table_ok_elem st matchId m Hok Hm) as (_ & _ & Htm).
  simpl in Htm.
  destruct Hok as (Hnd & Hall & Hlt). unfold table_ok. simpl.
  rewrite map_delete_filter.
  split; [by apply NoDup_filter_keys|]. split.
  - apply Forall_forall. intros km Hin.
    apply list_elem_of_filter in Hin as [Hk Hin].
    eapply Forall_forall in Hall; [|exact Hin].
    destruct Hall as (H1 & H2 & H3). unfold match_ok. simpl.
    repeat split; [done..|].
    rewrite lookup_delete_ne; [done|]. intros Heq.
    rewrite Heq, H3 in Htm. by injection Htm as ?.
  - intros h Hh. apply lookup_delete_is_Some in Hh as [_ Hh]. by apply Hlt.
Qed.

Lemma table_ok_record matchId m m' st :
  table_ok st →
  map_get matchId (matches st) = Some m →
  m_id m' = m_id m → m_finished m' = m_finished m →
  m_deadline m' = m_deadline m → m_timer m' = m_timer m →
  table_ok (mkState (sockets st) (waitingByLocation st)
              (map_set matchId m' (matches st)) (timers st) (next_timer st)).
Proof.
  intros Hok Hm E1 E2 E3 E4.
  pose proof (table_ok_elem st matchId m Hok Hm) as (H1 & H2 & H3).
  destruct Hok as (Hnd & Hall & Hlt). unfold table_ok. simpl in *.
  split; [by apply NoDup_map_set|]. split; [|done].
  apply Forall_forall. intros km Hin.
  apply elem_of_map_set in Hin as [->|Hin].
  - unfold match_ok. simpl. by rewrite E1, E2, E3, E4.
  - by eapply Forall_forall in Hall.
Qed.

Lemma table_ok_submit_choice sid matchId c now c1 c2 st :
  table_ok st → table_ok (submit_choice sid matchId c now c1 c2 st).1.
Proof.
  intros Hok. unfold submit_choice.
  destruct (sockets st !! sid) as [socket|]; [|done].
  destruct (map_get matchId (matches st)) as [m|] eqn:Hm; [|done].
  destruct (is_legal c); simpl; [|done].
  assert (Hrec : ∀ m', m_id m' = m_id m → m_finished m' = m_finished m →
    m_deadline m' = m_deadline m → m_timer m' = m_timer m →
    table_ok (maybeFinish matchId now c1 c2
                (mkState (sockets st) (waitingByLocation st)
                   (map_set matchId m' (matches st)) (timers st)
                   (next_timer st))).1).
  { intros m' E1 E2 E3 E4. apply table_ok_maybeFinish.
    by apply (table_ok_record matchId m m'). }
  destruct (decide (sid = p_id (m_a m))).
  - specialize (Hrec (set_a m (set_choice (m_a m) c)) eq_refl eq_refl eq_refl eq_refl).
    by destruct (maybeFinish _ _ _ _ _).
  - destruct (decide (sid = p_id (m_b m))); [|done].
    specialize (Hrec (set_b m (set_choice (m_b m) c)) eq_refl eq_refl eq_refl eq_refl).
    by destruct (maybeFinish _ _ _ _ _).
Qed.

Lemma decided_late now m p :
  (m_deadline m + 250 ≤ now)%Z → decided now m p = true.
Proof.
  intros H. unfold decided.
  destruct (Z.gtb_spec now (m_deadline m)); [apply orb_true_r|lia].
Qed.

Lemma table_ok_timeout h now c1 c2 st :
  table_ok st → table_ok (timeout h now c1 c2 st).1.
Proof.
  intros Hok. unfold timeout.
  destruct (timers st !! h) as [[matchId due]|] eqn:Ht; [|done].
  destruct (Z.leb_spec due now) as [Hdue|]; [|done].
  (* a live match that owns [h] is the one the callback finalizes *)
  assert (Hown : ∀ km, km ∈ matches st → m_timer km.2 = h →
            km.1 = matchId ∧ map_get matchId (matches st) = Some km.2 ∧
            (m_deadline km.2 + 250 ≤ now)%Z).
  { intros km Hin Hh.
    destruct (table_ok_timer_owner st km h due matchId Hok Hin Hh Ht)
      as (E1 & E2 & E3).
    repeat split; [done..|lia]. }
  set (st1 := mkState (sockets st) (waitingByLocation st) (matches st)
                (delete h (timers st)) (next_timer st)).
  destruct Hok as (Hnd & Hall & Hlt).
  assert (Hrest : ∀ km, km ∈ matches st → km.1 ≠ matchId →
            match_ok st1 km).
  { intros km Hin Hk.
    pose proof Hall as Hall'.
    eapply Forall_forall in Hall'; [|exact Hin].
    destruct Hall' as (H1 & H2 & H3). unfold match_ok. simpl.
    repeat split; [done..|].
    rewrite lookup_delete_ne; [done|]. intros Heq.
    destruct (Hown km Hin (eq_sym Heq)) as (E1 & _). done. }
  assert (Hlt1 : ∀ h', is_Some (timers st1 !! h') → h' < next_timer st1).
  { intros h' Hh'. simpl in *.
    apply lookup_delete_is_Some in Hh' as [_ Hh']. by apply Hlt. }
  destruct (map_get matchId (matches st)) as [m|] eqn:Hm.
  - pose proof (map_get_elem_of _ _ _ Hm) as Hin.
    pose proof Hall as Hall'.
    eapply Forall_forall in Hall'; [|exact Hin].
    destruct Hall' as (H1 & H2 & H3). simpl in *.
    destruct (decide (m_timer m = h)) as [Hh|Hh].
    + destruct (Hown _ Hin Hh) as (_ & _ & Hlate). simpl in Hlate.
      assert (Hd : decided now m (m_a m) && decided now m (m_b m) = true)
        by (by rewrite !decided_late).
      rewrite (maybeFinish_finalize matchId now c1 c2 st1 m Hm H2 Hd).
      unfold table_ok. simpl. rewrite map_delete_filter.
      split; [by apply NoDup_filter_keys|]. split.
      * apply Forall_forall. intros km Hkm.
        apply list_elem_of_filter in Hkm as [Hk Hkm].
        destruct (Hrest km Hkm Hk) as (G1 & G2 & G3).
        unfold match_ok. simpl in *. repeat split; [done..|].
        rewrite lookup_delete_ne; [done|]. intros Heq.
        rewrite Hh in Heq.
        destruct (Hown km Hkm (eq_sym Heq)) as (E1 & _). done.
      * intros h' Hh'. apply lookup_delete_is_Some in Hh' as [_ Hh'].
        by apply Hlt1.
    + apply table_ok_maybeFinish. unfold table_ok. simpl.
      split; [done|]. split; [|done].
      apply Forall_forall. intros km Hkm.
      destruct (decide (km.1 = matchId)) as [Hk|Hk]; [|by apply Hrest].
      assert (km.2 = m) as Hkm2.
      { assert (map_get matchId (matches st) = Some km.2) as Hg
          by (apply elem_of_map_get; [done|]; rewrite <- Hk; by destruct km).
        congruence. }
      pose proof Hall as Hall'.
      eapply Forall_forall in Hall'; [|exact Hkm].
      destruct Hall' as (G1 & G2 & G3). unfold match_ok. simpl.
      repeat split; [done..|].
      rewrite lookup_delete_ne; [done|]. congruence.
  - rewrite (maybeFinish_gone matchId now c1 c2 st1 Hm).
    unfold table_ok. simpl. split; [done|]. split; [|done].
    apply Forall_forall. intros km Hkm. apply Hrest; [done|].
    intros Hk.
    assert (map_get matchId (matches st) = Some km.2) as Hg
      by (apply elem_of_map_get; [done|]; rewrite <- Hk; by destruct km).
    congruence.
Qed.

Lemma table_ok_disconnect sid st :
  table_ok st → table_ok (disconnect sid st).1.
Proof.
  intros (Hnd & Hall & Hlt). unfold disconnect.
  destruct (sockets st !! sid) as [socket|]; [|done].
  destruct (cancel_matches_spec sid (delete sid (sockets st)) (matches st)
              (waitingByLocation st)) as (H1 & _ & _).
  destruct (cancel_matches _ _ _ _) as [[ms w] out]. simpl in *. subst ms.
  unfold table_ok. simpl.
  split; [by apply NoDup_filter_keys|]. split; [|done].
  apply Forall_forall. intros km Hkm.
  apply list_elem_of_filter in Hkm as [_ Hkm].
  by eapply Forall_forall in Hall.
Qed.

Lemma table_ok_join_location sid loc name uuid now st :
  table_ok st → table_ok (join_location sid loc name uuid now st).1.
Proof.
  intros Hok. unfold join_location.
  destruct (sockets st !! sid) as [socket|]; [|done].
  destruct (default [] _) as [|head rest]; [by apply (table_ok_same st)|].
  destruct (_ !! head) as [partner|]; [|by apply (table_ok_same st)].
  apply table_ok_createMatch. by apply (table_ok_same st).
Qed.

Lemma table_ok_step st i : table_ok st → table_ok (step st i).1.
Proof.
  intros Hok. destruct i; simpl.
  - by apply (table_ok_same st).
  - by apply table_ok_join_location.
  - by apply table_ok_submit_choice.
  - by apply table_ok_disconnect.
  - by apply table_ok_timeout.
Qed.
End table.

Lemma table_ok_reached (st : State) : reached st → table_ok st.
Proof.
  induction 1 as [|st i Hr IH].
  - unfold table_ok, initial. simpl. split; [apply NoDup_nil_2|].
    split; [apply Forall_nil_2|]. intros h [x Hx]. by rewrite lookup_empty in Hx.
  - by apply table_ok_step.
Qed.

(** X6. In every state the server can reach, whatever the inputs: the match
    table holds each id once, every match in it sits under its own id and is
    not finished, its timer is pending and due 250 ms after its deadline,
    and every pending timer handle is below the next fresh one. *)
Theorem reached_table_ok (st : State) : reached st → table_ok st.
Proof. apply table_ok_reached. Qed.

Lemma reached_run (inputs : list Input) : ∀ st,
  reached st → reached (run st inputs).1.
Proof.
  induction inputs as [|i rest IH]; intros st Hr; [done|]. simpl.
  specialize (IH (step st i).1 (reached_step st i Hr)).
  destruct (step st i) as [st1 out1]. simpl in *.
  by destruct (run st1 rest) as [st2 out2].
Qed.

Lemma reached_table_ok_witness : table_ok st_two_matched.
Proof.
  apply reached_table_ok. unfold st_two_matched.
  apply reached_run. apply reached_initial.
Defined.

(** ** Participants stay connected *)

Lemma maybeFinish_matches_subseteq matchId now c1 c2 st km :
  km ∈ matches (maybeFinish matchId now c1 c2 st).1 → km ∈ matches st.
Proof.
  unfold maybeFinish.
  destruct (map_get matchId (matches st)) as [m|]; [|done].
  destruct (m_finished m); [done|].
  destruct (truthy _ && truthy _); [|done]. simpl.
  rewrite map_delete_filter. intros H. by apply list_elem_of_filter in H as [_ H].
Qed.

Lemma maybeFinish_sockets matchId now c1 c2 st :
  sockets (maybeFinish matchId now c1 c2 st).1 = sockets st.
Proof. apply maybeFinish_frame. Qed.

Lemma participants_live_createMatch idA sockA idB sockB uuid now st :
  is_Some (sockets st !! idA) → is_Some (sockets st !! idB) →
  participants_live st →
  participants_live (createMatch idA sockA idB sockB uuid now st).1.
Proof.
  intros HA HB Hpl km Hin. unfold createMatch in Hin. simpl in *.
  apply elem_of_map_set in Hin as [->|Hin]; [done|by apply Hpl].
Qed.

Lemma participants_live_join_location sid loc name uuid now st :
  participants_live st →
  participants_live (join_location sid loc name uuid now st).1.
Proof.
  intros Hpl. unfold join_location.
  destruct (sockets st !! sid) as [socket|] eqn:Hs; [|done].
  assert (Hkeep : ∀ x (s : Socket),
            is_Some (sockets st !! x) → is_Some (<[sid := s]> (sockets st) !! x)).
  { intros x s Hx. apply lookup_insert_is_Some'. by right. }
  destruct (default [] _) as [|head rest].
  - intros km Hin. simpl in *. destruct (Hpl km Hin) as [Ha Hb].
    split; apply lookup_insert_is_Some'; right; by apply Hkeep.
  - destruct (_ !! head) as [partner|] eqn:Hp.
    + apply participants_live_createMatch; simpl.
      * by rewrite Hp.
      * rewrite lookup_insert_eq. done.
      * intros km Hin. simpl in *. destruct (Hpl km Hin) as [Ha Hb].
        split; by apply Hkeep.
    + intros km Hin. simpl in *. destruct (Hpl km Hin) as [Ha Hb].
      split; by apply Hkeep.
Qed.

Lemma participants_live_maybeFinish matchId now c1 c2 st :
  participants_live st →
  participants_live (maybeFinish matchId now c1 c2 st).1.
Proof.
  intros Hpl km Hin. rewrite maybeFinish_sockets.
  apply Hpl. by apply maybeFinish_matches_subseteq in Hin.
Qed.

Lemma participants_live_submit_choice sid matchId c now c1 c2 st :
  participants_live st →
  participants_live (submit_choice sid matchId c now c1 c2 st).1.
Proof.
  intros Hpl. unfold submit_choice.
  destruct (sockets st !! sid) as [socket|]; [|done].
  destruct (map_get matchId (matches st)) as [m|] eqn:Hm; [|done].
  destruct (is_legal c); simpl; [|done].
  apply map_get_elem_of in Hm. destruct (Hpl _ Hm) as [Ha Hb]. simpl in *.
  assert (Hrec : ∀ m', p_id (m_a m') = p_id (m_a m) → p_id (m_b m') = p_id (m_b m) →
    participants_live (maybeFinish matchId now c1 c2
                (mkState (sockets st) (waitingByLocation st)
                   (map_set matchId m' (matches st)) (timers st)
                   (next_timer st))).1).
  { intros m' E1 E2. apply participants_live_maybeFinish.
    intros km Hin. simpl in *.
    apply elem_of_map_set in Hin as [Heq|Hin]; [|by apply Hpl].
    subst km. cbn [snd]. by rewrite E1, E2. }
  destruct (decide (sid = p_id (m_a m))).
  - specialize (Hrec (set_a m (set_choice (m_a m) c)) eq_refl eq_refl).
    by destruct (maybeFinish _ _ _ _ _).
  - destruct (decide (sid = p_id (m_b m))); [|done].
    specialize (Hrec (set_b m (set_choice (m_b m) c)) eq_refl eq_refl).
    by destruct (maybeFinish _ _ _ _ _).
Qed.

Lemma participants_live_timeout h now c1 c2 st :
  participants_live st → participants_live (timeout h now c1 c2 st).1.
Proof.
  intros Hpl. unfold timeout.
  destruct (timers st !! h) as [[matchId due]|]; [|done].
  destruct (due <=? now); [|done].
  by apply participants_live_maybeFinish.
Qed.

Lemma disconnect_matches sid st socket :
  sockets st !! sid = Some socket →
  matches (disconnect sid st).1
  = filter (λ km, ¬ cancelled sid km.2) (matches st) ∧
  sockets (disconnect sid st).1 = delete sid (sockets st).
Proof.
  intros Hs. unfold disconnect. rewrite Hs.
  destruct (cancel_matches_spec sid (delete sid (sockets st)) (matches st)
              (waitingByLocation st)) as (H1 & _ & _).
  by destruct (cancel_matches _ _ _ _) as [[ms w] out].
Qed.

Lemma participants_live_disconnect sid st :
  table_ok st → participants_live st →
  participants_live (disconnect sid st).1.
Proof.
  intros (_ & Hall & _) Hpl.
  destruct (sockets st !! sid) as [socket|] eqn:Hs.
  - destruct (disconnect_matches sid st socket Hs) as [Hms Hsocks].
    intros km Hin. rewrite Hms in Hin. rewrite Hsocks.
    apply list_elem_of_filter in Hin as [Hnc Hin].
    eapply Forall_forall in Hall; [|exact Hin].
    destruct Hall as (_ & Hf & _).
    destruct (Hpl km Hin) as [Ha Hb].
    split; apply lookup_delete_is_Some; (split; [|done]);
      intros Heq; apply Hnc; (split; [done|]); [left|right]; done.
  - unfold disconnect. by rewrite Hs.
Qed.

Lemma participants_live_step st i :
  table_ok st → participants_live st → participants_live (step st i).1.
Proof.
  intros Hok Hpl. destruct i; simpl.
  - intros km Hin. simpl in *. destruct (Hpl km Hin) as [Ha Hb].
    split; apply lookup_insert_is_Some'; by right.
  - by apply participants_live_join_location.
  - by apply participants_live_submit_choice.
  - by apply participants_live_disconnect.
  - by apply participants_live_timeout.
Qed.

Lemma participants_live_reached (st : State) :
  reached st → participants_live st.
Proof.
  induction 1 as [|st i Hr IH].
  - intros km Hin. by apply elem_of_nil in Hin.
  - apply participants_live_step; [by apply table_ok_reached|done].
Qed.

(** X7. In every state the server can reach, whatever the inputs, both
    sides of every live match are connected sockets: a match is only made
    between connected sockets, and a disconnect takes every match of the
    leaving socket out of the table. *)
Theorem reached_participants_live (st : State) :
  reached st → participants_live st.
Proof. apply participants_live_reached. Qed.

Lemma reached_participants_live_witness : participants_live st_two_matched.
Proof.
  apply reached_participants_live. unfold st_two_matched.
  apply reached_run. apply reached_initial.
Defined.

(** X8. No match is stuck: in every state the server can reach, the timer
    of a live match is pending, and when it fires, at any time from 250 ms
    after the deadline on, the match is taken out of the table and both
    sides are sent [result], each with its recorded choice or ['steal'] for
    a side that has none. *)
Theorem live_match_ends_at_its_timer (st : State) (k : string) (m : Match)
    (now : Z) (c1 c2 : string) :
  reached st →
  (k, m) ∈ matches st →
  m_deadline m + 250 ≤ now →
  let r := timeout (m_timer m) now c1 c2 st in
  let ca := js_or (p_choice (m_a m)) steal in
  let cb := js_or (p_choice (m_b m)) steal in
  let pz := computeOutcomeAndPrizes c1 c2 ca cb in
  timers st !! m_timer m = Some (k, m_deadline m + 250) ∧
  map_get k (matches r.1) = None ∧
  matches r.1 = filter (λ km, km.1 ≠ k) (matches st) ∧
  r.2 = [(p_id (m_a m), result k ca cb (js_or (aPrize pz) null));
         (p_id (m_b m), result k cb ca (js_or (bPrize pz) null))].
Proof.
  intros Hr Hin Hnow r ca cb pz. subst r.
  pose proof (table_ok_reached st Hr) as Hok.
  pose proof (participants_live_reached st Hr (k, m) Hin) as [[sa Ha] [sb Hb]].
  simpl in Ha, Hb.
  assert (Hm : map_get k (matches st) = Some m)
    by (apply elem_of_map_get; [apply Hok|done]).
  destruct (table_ok_elem st k m Hok Hm) as (Hid & Hf & Ht). simpl in *.
  split; [done|]. unfold timeout. rewrite Ht.
  replace (m_deadline m + 250 <=? now) with true
    by (symmetry; by apply Z.leb_le).
  assert (Hd : decided now m (m_a m) && decided now m (m_b m) = true)
    by (by rewrite !decided_late).
  rewrite (maybeFinish_finalize k now c1 c2
             (mkState (sockets st) (waitingByLocation st) (matches st)
                (delete (m_timer m) (timers st)) (next_timer st))
             m Hm Hf Hd). simpl.
  replace (now >? m_deadline m) with true
    by (symmetry; apply Z.gtb_lt; lia).
  unfold emit_if_live. rewrite Ha, Hb, Hid. simpl.
  split; [apply map_get_delete_eq|]. split; [apply map_delete_filter|done].
Qed.

Lemma live_match_ends_at_its_timer_witness :
  (timeout 0 21251 "K1" "K2" st_two_matched).2
  = [("A", result "m1" steal steal null); ("B", result "m1" steal steal null)].
Proof.
  destruct (live_match_ends_at_its_timer st_two_matched "m1"
              (mkMatch "m1" (str "L") (mkPlayer "A" (str "Ann") null)
                 (mkPlayer "B" (str "Bob") null) 21001 false 0)
              21251 "K1" "K2") as (_ & _ & _ & H).
  - unfold st_two_matched. apply reached_run. apply reached_initial.
  - apply list_elem_of_here.
  - simpl. lia.
  - exact H.
Defined.

(** ** Who is sent events *)

Lemma emit_if_live_connected (socks : gmap string Socket) sid ev :
  Forall (λ e : Emission, is_Some (socks !! e.1)) (emit_if_live socks sid ev).
Proof.
  unfold emit_if_live. destruct (socks !! sid) eqn:E; [|by apply Forall_nil_2].
  apply Forall_singleton. simpl. by rewrite E.
Qed.

Lemma maybeFinish_emits_connected matchId now c1 c2 st :
  Forall (λ e : Emission, is_Some (sockets st !! e.1))
    (maybeFinish matchId now c1 c2 st).2.
Proof.
  unfold maybeFinish.
  destruct (map_get matchId (matches st)) as [m|]; [|by apply Forall_nil_2].
  destruct (m_finished m); [by apply Forall_nil_2|].
  destruct (truthy _ && truthy _); [|by apply Forall_nil_2]. simpl.
  apply Forall_app. split; apply emit_if_live_connected.
Qed.

Lemma requeued_connected sid (socks : gmap string Socket) ms :
  Forall (λ lo : jsval * string, is_Some (socks !! lo.2)) (requeued sid socks ms).
Proof.
  induction ms as [|[k m] ms IH]; simpl; [by apply Forall_nil_2|].
  destruct (decide (cancelled sid m)); [|done].
  destruct (socks !! opponent sid m) eqn:E; [|done].
  apply Forall_cons. split; [|done]. simpl. by rewrite E.
Qed.

(** X9. No handler ever sends an event to a socket that is not connected:
    after any input, in any state, every event emitted is addressed to a
    socket that is in the registry when the handler is done. *)
Theorem emissions_reach_connected (st : State) (i : Input) :
  Forall (λ e : Emission, is_Some (sockets (step st i).1 !! e.1)) (step st i).2.
Proof.
  destruct i as [sid|sid loc name uuid now|sid mid c now c1 c2|sid|h now c1 c2];
    simpl.
  - by apply Forall_nil_2.
  - unfold join_location.
    destruct (sockets st !! sid) as [socket|] eqn:Hs; [|by apply Forall_nil_2].
    destruct (default [] _) as [|head rest].
    + apply Forall_singleton. simpl. by rewrite lookup_insert_eq.
    + destruct (_ !! head) as [partner|] eqn:Hp.
      * unfold createMatch. simpl.
        repeat (apply Forall_cons; split); simpl;
          [by rewrite Hp|by rewrite lookup_insert_eq|apply Forall_nil_2].
      * apply Forall_singleton. simpl. by rewrite lookup_insert_eq.
  - unfold submit_choice.
    destruct (sockets st !! sid) as [socket|] eqn:Hs; [|by apply Forall_nil_2].
    destruct (map_get mid (matches st)) as [m|].
    2:{ apply Forall_singleton. simpl. by rewrite Hs. }
    destruct (is_legal c); simpl; [|by apply Forall_nil_2].
    assert (Hrec : ∀ m',
      let r := maybeFinish mid now c1 c2
                 (mkState (sockets st) (waitingByLocation st)
                    (map_set mid m' (matches st)) (timers st) (next_timer st)) in
      Forall (λ e : Emission, is_Some (sockets r.1 !! e.1))
        ((sid, choice_recorded mid) :: r.2)).
    { intros m' r. subst r. rewrite maybeFinish_sockets. simpl.
      apply Forall_cons. split; [simpl; by rewrite Hs|].
      apply (maybeFinish_emits_connected mid now c1 c2
               (mkState (sockets st) (waitingByLocation st)
                  (map_set mid m' (matches st)) (timers st) (next_timer st))). }
    destruct (decide (sid = p_id (m_a m))).
    + specialize (Hrec (set_a m (set_choice (m_a m) c))).
      by destruct (maybeFinish _ _ _ _ _).
    + destruct (decide (sid = p_id (m_b m))).
      * specialize (Hrec (set_b m (set_choice (m_b m) c))).
        by destruct (maybeFinish _ _ _ _ _).
      * apply Forall_singleton. simpl. by rewrite Hs.
  - unfold disconnect.
    destruct (sockets st !! sid) as [socket|]; [|by apply Forall_nil_2].
    destruct (cancel_matches_spec sid (delete sid (sockets st)) (matches st)
                (waitingByLocation st)) as (_ & _ & H3).
    destruct (cancel_matches _ _ _ _) as [[ms w] out]. simpl in *. subst out.
    apply Forall_fmap. apply (requeued_connected sid).
  - unfold timeout.
    destruct (timers st !! h) as [[matchId due]|]; [|by apply Forall_nil_2].
    destruct (due <=? now); [|by apply Forall_nil_2].
    rewrite maybeFinish_sockets. simpl.
    apply (maybeFinish_emits_connected matchId now c1 c2
             (mkState (sockets st) (waitingByLocation st) (matches st)
                (delete h (timers st)) (next_timer st))).
Qed.

(** ** What a disconnect does to the queues *)

Section own_cleanup.
Local Open Scope nat_scope.
Variable sid : string.

Lemma occurrences_remove_first_self (q : list string) :
  occurrences sid (remove_first sid q) = occurrences sid q - 1.
Proof.
  induction q as [|y q IH]; simpl; [done|].
  destruct (decide (sid = y)) as [<-|Hne].
  - rewrite occurrences_cons, decide_True by done. lia.
  - rewrite !occurrences_cons, decide_False by congruence. by rewrite IH.
Qed.

Lemma cleanup_listener_self (w : gmap jsval (list string)) (l loc : jsval) :
  occurrences sid (default [] (cleanup_listener sid w l !! loc))
  = occurrences sid (default [] (w !! loc)) - (if decide (l = loc) then 1 else 0).
Proof.
  unfold cleanup_listener. destruct (decide (l = loc)) as [<-|Hne].
  - destruct (w !! l) as [q|] eqn:E.
    + rewrite lookup_insert_eq. simpl. apply occurrences_remove_first_self.
    + by rewrite E.
  - destruct (w !! l) as [q|]; [rewrite lookup_insert_ne by done|]; lia.
Qed.

Lemma cleanups_self (ls : list jsval) : ∀ w loc,
  occurrences sid (default [] (foldl (cleanup_listener sid) w ls !! loc))
  = occurrences sid (default [] (w !! loc)) - length (filter (λ l, l = loc) ls).
Proof.
  induction ls as [|l ls IH]; intros w loc; simpl; [lia|].
  rewrite IH, cleanup_listener_self, filter_cons.
  destruct (decide (l = loc)); simpl; lia.
Qed.

Lemma survivors_not_leaver (socks : gmap string Socket) ms loc :
  socks !! sid = None → occurrences sid (survivors sid socks ms loc) = 0.
Proof.
  intros Hs. unfold survivors.
  pose proof (requeued_connected sid socks ms) as Hall.
  induction Hall as [|[l o] los Ho Hall IH]; [done|].
  rewrite filter_cons. cbn [fst snd] in *.
  destruct (decide (l = loc)); [|exact IH].
  rewrite fmap_cons. cbn [snd].
  rewrite occurrences_cons, IH, decide_False; [done|].
  intros ->. rewrite Hs in Ho. by destruct Ho.
Qed.
End own_cleanup.

(** X10. When a connected socket disconnects, the number of times its id
    stands in the queue of a location goes down by the number of clean-up
    listeners it holds for that location, and stops at zero: each listener
    takes out one occurrence, and nothing else in the disconnect adds or
    removes the id. *)
Theorem disconnect_cleans_queues (sid : string) (st : State) (socket : Socket)
    (loc : jsval) :
  sockets st !! sid = Some socket →
  occurrences sid (default [] (waitingByLocation (disconnect sid st).1 !! loc))
  = (occurrences sid (default [] (waitingByLocation st !! loc))
     - listeners_at loc socket)%nat.
Proof.
  intros Hs. unfold disconnect. rewrite Hs.
  destruct (cancel_matches_spec sid (delete sid (sockets st)) (matches st)
              (waitingByLocation st)) as (_ & H2 & _).
  destruct (cancel_matches _ _ _ _) as [[ms w] out]. simpl in *.
  rewrite cleanups_self, H2, occurrences_app.
  rewrite survivors_not_leaver by apply lookup_delete_eq.
  unfold listeners_at. lia.
Qed.

Lemma disconnect_cleans_queues_witness :
  occurrences "A"
    (default []
       (waitingByLocation (disconnect "A" st_left_while_queued).1 !! str "L"))
  = 0%nat.
Proof.
  apply (disconnect_cleans_queues "A" st_left_while_queued
           (mkSocket (str "L") (str "Ann") [str "L"]) (str "L")).
  reflexivity.
Defined.

(** ** First in, first paired *)

Lemma join_location_live_head sid loc name uuid now st socket head rest :
  sockets st !! sid = Some socket →
  waitingByLocation st !! loc = Some (head :: rest) →
  is_Some (sockets st !! head) →
  waitingByLocation (join_location sid loc name uuid now st).1
    = <[loc := rest]> (waitingByLocation st) ∧
  pairing <$> (join_location sid loc name uuid now st).2
    = [Some (head, uuid, sid); Some (sid, uuid, head)] ∧
  (∀ x, is_Some (sockets st !! x) →
        is_Some (sockets (join_location sid loc name uuid now st).1 !! x)).
Proof.
  intros Hs Hq Hhead. unfold join_location. rewrite Hs, Hq. simpl. rewrite Hq.
  simpl.
  assert (Hp : is_Some
    (<[sid := mkSocket loc (js_or name (str "Player")) (s_cleanups socket)]>
       (sockets st) !! head)) by (apply lookup_insert_is_Some'; by right).
  destruct Hp as [partner Hp]. rewrite Hp. simpl.
  repeat split. intros x Hx. apply lookup_insert_is_Some'. by right.
Qed.

(** X11. First in, first paired. If the first [n] ids of the queue of a
    location are connected sockets, then [n] [join_location] requests for
    that location from connected sockets pair them off in order: the i-th
    requester is matched with the i-th id of the queue, the only events
    emitted are the two [match_found] of each pairing, and the queue is left
    with what came after the first [n] ids. *)
Theorem first_in_first_paired (loc : jsval) (js : list Joiner) (st : State)
    (q : list string) :
  waitingByLocation st !! loc = Some q →
  (length js ≤ length q)%nat →
  Forall (λ p, is_Some (sockets st !! p)) (take (length js) q) →
  Forall (λ j, is_Some (sockets st !! j_sid j)) js →
  waitingByLocation (run st (joins loc js)).1 !! loc = Some (drop (length js) q) ∧
  pairing <$> (run st (joins loc js)).2 = Some <$> fifo_pairings q js.
Proof.
  revert st q.
  induction js as [|j js IH]; intros st q Hq Hlen Hheads Hjs.
  - simpl. split; [done|by destruct q].
  - destruct q as [|p q]; [simpl in Hlen; lia|].
    simpl in Hlen, Hheads.
    apply Forall_cons in Hheads as [Hp Hheads].
    apply Forall_cons in Hjs as [[socket Hj] Hjs].
    destruct (join_location_live_head (j_sid j) loc (j_name j) (j_uuid j)
                (j_now j) st socket p q Hj Hq Hp) as (Hw & Hout & Hlive).
    simpl.
    destruct (join_location _ _ _ _ _ st) as [st1 out1]. simpl in *.
    destruct (IH st1 q) as [IH1 IH2].
    + rewrite Hw. apply lookup_insert_eq.
    + lia.
    + eapply Forall_impl; [exact Hheads|]. intros x Hx. by apply Hlive.
    + eapply Forall_impl; [exact Hjs|]. intros x Hx. by apply Hlive.
    + destruct (run st1 _) as [st2 out2]. simpl in *.
      split; [done|]. by rewrite fmap_app, Hout, IH2.
Qed.

Lemma first_in_first_paired_witness :
  waitingByLocation
    (run st_two_waiting
       (joins (str "L") [mkJoiner "D" (str "Di") "m3" 2000;
                         mkJoiner "E" undefined "m4" 2001])).1 !! str "L"
    = Some [] ∧
  pairing <$>
    (run st_two_waiting
       (joins (str "L") [mkJoiner "D" (str "Di") "m3" 2000;
                         mkJoiner "E" undefined "m4" 2001])).2
    = [Some ("C", "m3", "D"); Some ("D", "m3", "C");
       Some ("B", "m4", "E"); Some ("E", "m4", "B")].
Proof.
  apply (first_in_first_paired (str "L")
           [mkJoiner "D" (str "Di") "m3" 2000; mkJoiner "E" undefined "m4" 2001]
           st_two_waiting ["C"; "B"]).
  - reflexivity.
  - simpl. lia.
  - repeat constructor; vm_compute; eauto.
  - repeat constructor; vm_compute; eauto.
Defined.

(** ** The queue size route *)

(** X12. What [GET /queue/:locationId] reports after a [join_location] from
    a connected socket: for any other location the same number as before;
    for the location joined, 1 when nobody waited, one less than before when
    the head of the queue was connected (it leaves with the requester), and
    the same number as before when the head was stale (it is replaced by the
    requester). *)
Theorem queue_waiting_join_location (sid : string) (loc name : jsval)
    (uuid : string) (now : Z) (st : State) (socket : Socket) (loc' : jsval) :
  sockets st !! sid = Some socket →
  queue_waiting loc' (join_location sid loc name uuid now st).1 =
    if decide (loc' = loc) then
      match default [] (waitingByLocation st !! loc) with
      | [] => 1%nat
      | head :: rest =>
          match sockets st !! head with
          | Some _ => (queue_waiting loc st - 1)%nat
          | None => queue_waiting loc st
          end
      end
    else queue_waiting loc' st.
Proof.
  intros Hs. unfold queue_waiting, join_location. rewrite Hs.
  destruct (waitingByLocation st !! loc) as [[|head rest]|] eqn:Hq; simpl.
  - rewrite Hq. simpl. destruct (decide (loc' = loc)) as [->|Hne].
    + by rewrite lookup_insert_eq.
    + by rewrite lookup_insert_ne.
  - rewrite Hq. simpl.
    assert (Hlive : is_Some
      (<[sid := mkSocket loc (js_or name (str "Player")) (s_cleanups socket)]>
         (sockets st) !! head) ↔ is_Some (sockets st !! head)).
    { rewrite lookup_insert_is_Some'. split; [|by right].
      intros [<-|H]; [by rewrite Hs|done]. }
    destruct (_ !! head) as [partner|] eqn:Hp.
    + destruct (sockets st !! head) eqn:Hh.
      2:{ exfalso. destruct Hlive as [H1 _].
          destruct H1 as [? ?]; [by eexists|done]. }
      simpl. destruct (decide (loc' = loc)) as [->|Hne].
      * rewrite lookup_insert_eq. simpl. lia.
      * by rewrite lookup_insert_ne.
    + destruct (sockets st !! head) eqn:Hh.
      { exfalso. destruct Hlive as [_ H2].
        destruct H2 as [? ?]; [by eexists|done]. }
      simpl. destruct (decide (loc' = loc)) as [->|Hne].
      * rewrite lookup_insert_eq. simpl. rewrite length_app. simpl. lia.
      * by rewrite lookup_insert_ne.
  - rewrite lookup_insert_eq. simpl. destruct (decide (loc' = loc)) as [->|Hne].
    + by rewrite lookup_insert_eq.
    + by rewrite !lookup_insert_ne.
Qed.

Lemma queue_waiting_join_location_witness :
  queue_waiting (str "L")
    (join_location "D" (str "L") undefined "m3" 2000 st_two_waiting).1 = 1%nat.
Proof.
  apply (queue_waiting_join_location "D" (str "L") undefined "m3" 2000
           st_two_waiting (mkSocket undefined undefined []) (str "L")).
  reflexivity.
Defined.


(** ** Late submissions and left-over timers *)

(** X15. The deadline is not checked when a choice is submitted. A legal
    choice from a participant of a live match that arrives after the
    deadline is still recorded and acknowledged, and it ends the round at
    once: the sender's side is resolved with the choice just sent, the other
    side with its recorded choice or ['steal'], the results go to the sides
    that are connected, and the match and its timer are removed. *)
Theorem late_submission_counts (sid matchId : string) (c : jsval) (now : Z)
    (c1 c2 : string) (st : State) (socket : Socket) (m : Match) (sd : Side) :
  sockets st !! sid = Some socket →
  map_get matchId (matches st) = Some m →
  m_finished m = false →
  side_of sid m = Some sd →
  is_legal c = true →
  m_deadline m < now →
  let m1 := record_choice sd c m in
  let ca := js_or (p_choice (m_a m1)) steal in
  let cb := js_or (p_choice (m_b m1)) steal in
  let pz := computeOutcomeAndPrizes c1 c2 ca cb in
  let r := submit_choice sid matchId c now c1 c2 st in
  js_or (p_choice (player sd m1)) steal = c ∧
  r.2 = (sid, choice_recorded matchId) ::
        emit_if_live (sockets st) (p_id (m_a m))
          (result (m_id m) ca cb (js_or (aPrize pz) null)) ++
        emit_if_live (sockets st) (p_id (m_b m))
          (result (m_id m) cb ca (js_or (bPrize pz) null)) ∧
  map_get matchId (matches r.1) = None ∧
  timers r.1 = delete (m_timer m) (timers st).
Proof.
  intros Hs Hm Hf Hsd Hc Hlate m1 ca cb pz r. subst r.
  rewrite (submit_choice_recorded _ _ _ _ _ _ _ _ _ _ Hs Hm Hsd Hc). fold m1.
  set (st1 := with_matches st (map_set matchId m1 (matches st))).
  assert (Hm1 : map_get matchId (matches st1) = Some m1) by apply map_get_set_eq.
  assert (Hf1 : m_finished m1 = false) by (by destruct sd).
  assert (Hgt : (now >? m_deadline m1) = true).
  { apply Z.gtb_lt. by destruct sd. }
  assert (Hd : decided now m1 (m_a m1) && decided now m1 (m_b m1) = true).
  { unfold decided. rewrite Hgt. by rewrite !orb_true_r. }
  rewrite (maybeFinish_finalize _ _ _ _ _ _ Hm1 Hf1 Hd). simpl.
  rewrite Hgt. split.
  { subst m1. rewrite record_choice_choice. by apply js_or_legal. }
  split; [by destruct sd|].
  split; [apply map_get_delete_eq|by destruct sd].
Qed.

Lemma late_submission_counts_witness :
  (submit_choice "A" "m1" share 21100 "K1" "K2" st_two_matched).2
  = [("A", choice_recorded "m1");
     ("A", result "m1" share steal null);
     ("B", result "m1" steal share (str "P-K1-BOTH"))].
Proof.
  destruct (late_submission_counts "A" "m1" share 21100 "K1" "K2" st_two_matched
              (mkSocket (str "L") (str "Ann") [str "L"])
              (mkMatch "m1" (str "L") (mkPlayer "A" (str "Ann") null)
                 (mkPlayer "B" (str "Bob") null) 21001 false 0) SideA)
    as (_ & H & _);
    [reflexivity | reflexivity | reflexivity | reflexivity | reflexivity
    | simpl; lia |].
  exact H.
Defined.

Lemma map_get_filter_out (P : string * Match → Prop)
    `{!∀ km, Decision (P km)} k m (l : list (string * Match)) :
  NoDup l.*1 → (k, m) ∈ l → ¬ P (k, m) → map_get k (filter P l) = None.
Proof.
  intros Hnd Hin HnP.
  destruct (map_get k (filter P l)) as [m'|] eqn:E; [|done].
  apply map_get_elem_of in E. apply list_elem_of_filter in E as [HP Hin'].
  pose proof (elem_of_map_get k m l Hnd Hin) as E1.
  pose proof (elem_of_map_get k m' l Hnd Hin') as E2.
  rewrite E1 in E2. injection E2 as <-. done.
Qed.

(** X16. A disconnect that cancels a match does not clear the match's
    timer. In every state the server can reach, after a participant of a
    live match disconnects the timer of that match is still pending; when
    it fires later, at any time, nothing is emitted and the match table, the
    queues and the registry stay as they are. *)
Theorem cancelled_match_timer_is_harmless (st : State) (sid k : string)
    (socket : Socket) (m : Match) (now : Z) (c1 c2 : string) :
  reached st →
  sockets st !! sid = Some socket →
  (k, m) ∈ matches st →
  participant sid m →
  let st1 := (disconnect sid st).1 in
  let r := timeout (m_timer m) now c1 c2 st1 in
  map_get k (matches st1) = None ∧
  timers st1 !! m_timer m = Some (k, m_deadline m + 250) ∧
  r.2 = [] ∧
  matches r.1 = matches st1 ∧
  waitingByLocation r.1 = waitingByLocation st1 ∧
  sockets r.1 = sockets st1.
Proof.
  intros Hr Hs Hin Hp st1 r.
  pose proof (table_ok_reached st Hr) as Hok.
  assert (Hm : map_get k (matches st) = Some m)
    by (apply elem_of_map_get; [apply Hok|done]).
  destruct (table_ok_elem st k m Hok Hm) as (_ & Hf & Ht). simpl in Hf, Ht.
  destruct (disconnect_matches sid st socket Hs) as [Hms _].
  assert (Htm : timers st1 = timers st).
  { subst st1. unfold disconnect. rewrite Hs.
    by destruct (cancel_matches _ _ _ _) as [[ms w] out]. }
  assert (Hgone : map_get k (matches st1) = None).
  { subst st1. rewrite Hms. apply (map_get_filter_out _ k m); [apply Hok|done|].
    intros Hnc. apply Hnc. by split. }
  split; [done|]. split; [by rewrite Htm|].
  subst r. unfold timeout. rewrite Htm, Ht.
  destruct (m_deadline m + 250 <=? now); [|done].
  by rewrite maybeFinish_gone.
Qed.

Lemma cancelled_match_timer_is_harmless_witness :
  timers (disconnect "A" st_two_matched).1 !! 0%nat = Some ("m1", 21251) ∧
  (timeout 0 30000 "K1" "K2" (disconnect "A" st_two_matched).1).2 = [].
Proof.
  destruct (cancelled_match_timer_is_harmless st_two_matched "A" "m1"
              (mkSocket (str "L") (str "Ann") [str "L"])
              (mkMatch "m1" (str "L") (mkPlayer "A" (str "Ann") null)
                 (mkPlayer "B" (str "Bob") null) 21001 false 0)
              30000 "K1" "K2") as (_ & H1 & H2 & _).
  - unfold st_two_matched. apply reached_run. apply reached_initial.
  - reflexivity.
  - apply list_elem_of_here.
  - by left.
  - split; [exact H1|exact H2].
Defined.

(** ** One play per day *)

Lemma getIrishDateKey_throws (clock : IrishClock) :
  getIrishDateKey clock = None ↔ (12 < dublin_day clock)%nat.
Proof.
  unfold getIrishDateKey.
  destruct (Nat.ltb_spec 12 (dublin_day clock)); split; try done; lia.
Qed.

(** X13. [getIrishDateKey] throws exactly on the days of the month after
    the 12th. When it throws, [/can-play] fails for every device before it
    answers, and [recordPlayedToday] for a device id records nothing. When it
    returns a day key, [recordPlayedToday] for a non-empty device id makes
    [/can-play] refuse that device, with the reason
    ['already_played_today'], whenever the key read is that day, accept it
    on every other day key, and answer for every other device as before. A
    missing or empty device id is left unrecorded without the key being
    read. *)
Theorem one_play_per_day (deviceId : jsval) (clock : IrishClock)
    (devicePlays : gmap jsval string) :
  (getIrishDateKey clock = None ↔ (12 < dublin_day clock)%nat) ∧
  (truthy deviceId = false →
   recordPlayedToday deviceId clock devicePlays = Some devicePlays) ∧
  (getIrishDateKey clock = None →
   (∀ d, can_play d clock devicePlays = None) ∧
   (truthy deviceId = true →
    recordPlayedToday deviceId clock devicePlays = None)) ∧
  (∀ today,
     getIrishDateKey clock = Some today →
     truthy deviceId = true →
     ∃ plays,
       recordPlayedToday deviceId clock devicePlays = Some plays ∧
       (∀ clock', getIrishDateKey clock' = Some today →
          can_play deviceId clock' plays
          = Some (mkCanPlay false (str "already_played_today"))) ∧
       (∀ clock' day, getIrishDateKey clock' = Some day → day ≠ today →
          can_play deviceId clock' plays = Some (mkCanPlay true undefined)) ∧
       (∀ other clock', other ≠ deviceId →
          can_play other clock' plays = can_play other clock' devicePlays)).
Proof.
  split; [apply getIrishDateKey_throws|].
  unfold recordPlayedToday, can_play. split; [by intros ->|]. split.
  - intros ->. split; [done|]. by intros ->.
  - intros today -> ->. simpl. eexists. split; [done|]. repeat split.
    + intros clock' ->. by rewrite lookup_insert_eq, decide_True.
    + intros clock' day -> Hday. by rewrite lookup_insert_eq, decide_False.
    + intros other clock' Hne. by rewrite lookup_insert_ne.
Qed.

Lemma one_play_per_day_witness :
  can_play (str "d1") (mkIrishClock 2 "2025-02-01") ∅ = Some (mkCanPlay true undefined) ∧
  can_play (str "d1") (mkIrishClock 13 "") ∅ = None.
Proof.
  destruct (one_play_per_day (str "d1") (mkIrishClock 13 "") ∅)
    as (_ & _ & H & _).
  destruct (H eq_refl) as [H1 _].
  split; [reflexivity|exact (H1 (str "d1"))].
Defined.

(** X14. The bookkeeping at the end of a round. When both day keys are read
    and are the same day, every finalist with a device id is refused by
    [/can-play] on that day, also when both sockets carry the same device
    id, and no other device is affected. When side A has a device id and its
    key read throws, nothing is recorded, for side B neither. When side A
    is recorded and the key read for side B throws, only side A is
    recorded. *)
Theorem finalists_cannot_play_again (devA devB : jsval)
    (clockA clockB : IrishClock) (devicePlays : gmap jsval string) :
  let plays := recordFinalists devA devB clockA clockB devicePlays in
  (∀ today clock,
     getIrishDateKey clockA = Some today →
     getIrishDateKey clockB = Some today →
     getIrishDateKey clock = Some today →
     (truthy devA = true → canPlay <$> can_play devA clock plays = Some false) ∧
     (truthy devB = true → canPlay <$> can_play devB clock plays = Some false) ∧
     (∀ other,
        (other ≠ devA ∨ truthy devA = false) →
        (other ≠ devB ∨ truthy devB = false) →
        can_play other clock plays = can_play other clock devicePlays)) ∧
  (truthy devA = true → getIrishDateKey clockA = None → plays = devicePlays) ∧
  (∀ today,
     truthy devA = true → truthy devB = true →
     getIrishDateKey clockA = Some today → getIrishDateKey clockB = None →
     plays = <[devA := today]> devicePlays) ∧
  (truthy devA = false → truthy devB = true →
   getIrishDateKey clockB = None → plays = devicePlays).
Proof.
  unfold recordFinalists, recordPlayedToday. simpl. split; [|repeat split].
  - intros today clock KA KB Kc. rewrite KA, KB. unfold can_play. rewrite Kc.
    repeat split.
    + intros HA. rewrite HA. simpl.
      destruct (truthy devB); simpl.
      * destruct (decide (devB = devA)) as [->|Hne].
        -- by rewrite lookup_insert_eq, decide_True.
        -- by rewrite lookup_insert_ne, lookup_insert_eq, decide_True.
      * by rewrite lookup_insert_eq, decide_True.
    + intros HB. rewrite HB.
      destruct (truthy devA); simpl; by rewrite lookup_insert_eq, decide_True.
    + intros other HA HB.
      destruct (truthy devA) eqn:EA; destruct (truthy devB) eqn:EB; simpl;
        destruct HA as [HA|HA]; destruct HB as [HB|HB]; try discriminate;
        by rewrite ?lookup_insert_ne.
  - by intros -> ->.
  - intros today -> -> -> ->. done.
  - by intros -> -> ->.
Qed.

Lemma finalists_cannot_play_again_witness :
  recordFinalists (str "d1") (str "d2") (mkIrishClock 13 "")
    (mkIrishClock 2 "2025-02-01") ∅ = ∅.
Proof.
  destruct (finalists_cannot_play_again (str "d1") (str "d2")
              (mkIrishClock 13 "") (mkIrishClock 2 "2025-02-01") ∅)
    as (_ & H & _).
  exact (H eq_refl eq_refl).
Defined.

(** * Claims stated as the code behaves *)

(** ** A socket paired with itself *)

(** C10 as stated fails: it lets every single [submit_choice] leave the
    self-match to its timer. ["A"] waits at ["L"], joins ["L"] again at 2000
    and is matched with itself, deadline 22000. Its choice sent at 22100,
    after the deadline and before the timer, ends the match at once; when the
    timer is due, nothing is left for it to do. *)
Lemma C10_counterexample :
  let j := join_location "A" (str "L") (str "Ann") "m2" 2000 st_one_waiting in
  let s := submit_choice "A" "m2" share 22100 "K1" "K2" j.1 in
  (∃ m, matches j.1 = [("m2", m)] ∧ p_id (m_a m) = "A" ∧ p_id (m_b m) = "A" ∧
        m_deadline m = 22000) ∧
  s.2 = [("A", choice_recorded "m2");
         ("A", result "m2" share steal null);
         ("A", result "m2" steal share (str "P-K1-BOTH"))] ∧
  matches s.1 = [] ∧
  timeout 1 22250 "K3" "K4" s.1 = (s.1, []).
Proof.
  split; [eexists; repeat split; reflexivity|].
  repeat split; reflexivity.
Qed.

(** C10, as the code has it. A connected socket [sid] that is the head of
    the queue of [loc] and sends [join_location] for [loc] again is paired
    with itself: the new match has [sid] on both sides and [sid] is told
    [match_found] twice, with itself as the opponent. A legal
    [submit_choice] from it is written to side A only and acknowledged.
    Sent no later than the deadline, it does not finalize the match, which
    ends when its timer fires, with side B defaulted to ['steal']. Sent after
    the deadline, it ends the match at once, inside the handler, again with
    side B defaulted to ['steal'], and clears the timer. *)
Theorem C10_self_pairing (sid : string) (loc name : jsval) (uuid : string)
    (rest : list string) (st : State) (socket : Socket) (choice : jsval)
    (t0 t1 t2 : Z) (c1 c2 c3 c4 : string) :
  sockets st !! sid = Some socket →
  waitingByLocation st !! loc = Some (sid :: rest) →
  is_legal choice = true →
  let j := join_location sid loc name uuid t0 st in
  let s := submit_choice sid uuid choice t1 c1 c2 j.1 in
  let f := timeout (next_timer st) t2 c3 c4 s.1 in
  (∃ m, map_get uuid (matches j.1) = Some m ∧
        p_id (m_a m) = sid ∧ p_id (m_b m) = sid ∧
        m_deadline m = t0 + DECISION_MS) ∧
  waitingByLocation j.1 !! loc = Some rest ∧
  j.2 = [(sid, match_found uuid sid (js_or name (str "Player")) (t0 + DECISION_MS));
         (sid, match_found uuid sid (js_or name (str "Player")) (t0 + DECISION_MS))] ∧
  (t1 ≤ t0 + DECISION_MS →
     s.2 = [(sid, choice_recorded uuid)] ∧
     (∃ m, map_get uuid (matches s.1) = Some m ∧
           p_choice (m_a m) = choice ∧ p_choice (m_b m) = null) ∧
     (t0 + DECISION_MS + 250 ≤ t2 →
        let pz := computeOutcomeAndPrizes c3 c4 choice steal in
        f.2 = [(sid, result uuid choice steal (js_or (aPrize pz) null));
               (sid, result uuid steal choice (js_or (bPrize pz) null))] ∧
        map_get uuid (matches f.1) = None)) ∧
  (t0 + DECISION_MS < t1 →
     let pz := computeOutcomeAndPrizes c1 c2 choice steal in
     s.2 = [(sid, choice_recorded uuid);
            (sid, result uuid choice steal (js_or (aPrize pz) null));
            (sid, result uuid steal choice (js_or (bPrize pz) null))] ∧
     map_get uuid (matches s.1) = None ∧
     timers s.1 !! next_timer st = None ∧
     f = (s.1, [])).
Proof.
  intros Hs Hq Hc j s f.
  set (me := mkSocket loc (js_or name (str "Player")) (s_cleanups socket)).
  assert (Hj : j =
    createMatch sid me sid me uuid t0
      (mkState (<[sid := me]> (sockets st))
         (<[loc := rest]> (waitingByLocation st)) (matches st) (timers st)
         (next_timer st))).
  { subst j. unfold join_location. rewrite Hs, Hq. simpl. rewrite Hq. simpl.
    by rewrite lookup_insert_eq. }
  set (m0 := mkMatch uuid loc (mkPlayer sid (js_or name (str "Player")) null)
               (mkPlayer sid (js_or name (str "Player")) null)
               (t0 + DECISION_MS) false (next_timer st)).
  set (m1 := record_choice SideA choice m0).
  assert (Hsock : sockets j.1 !! sid = Some me)
    by (rewrite Hj; apply lookup_insert_eq).
  assert (Hm0 : map_get uuid (matches j.1) = Some m0)
    by (rewrite Hj; apply map_get_set_eq).
  assert (Hsd : side_of sid m0 = Some SideA)
    by (unfold side_of; simpl; by rewrite decide_True).
  assert (Hsub : s =
    ((maybeFinish uuid t1 c1 c2
        (with_matches j.1 (map_set uuid m1 (matches j.1)))).1,
     (sid, choice_recorded uuid) ::
     (maybeFinish uuid t1 c1 c2
        (with_matches j.1 (map_set uuid m1 (matches j.1)))).2)).
  { subst s. by apply (submit_choice_recorded sid uuid choice t1 c1 c2 j.1 me m0). }
  set (st1 := with_matches j.1 (map_set uuid m1 (matches j.1))) in Hsub.
  assert (Hm1 : map_get uuid (matches st1) = Some m1) by apply map_get_set_eq.
  assert (Hlive1 : sockets st1 !! sid = Some me) by exact Hsock.
  assert (Htimer1 : timers st1 !! next_timer st
                    = Some (uuid, t0 + (DECISION_MS + 250))).
  { subst st1. rewrite Hj. apply lookup_insert_eq. }
  assert (Hj1 : (∃ m, map_get uuid (matches j.1) = Some m ∧
                   p_id (m_a m) = sid ∧ p_id (m_b m) = sid ∧
                   m_deadline m = t0 + DECISION_MS) ∧
                waitingByLocation j.1 !! loc = Some rest ∧
                j.2 = [(sid, match_found uuid sid (js_or name (str "Player"))
                               (t0 + DECISION_MS));
                       (sid, match_found uuid sid (js_or name (str "Player"))
                               (t0 + DECISION_MS))]).
  { split; [exists m0; by rewrite Hm0|].
    split; [rewrite Hj; apply lookup_insert_eq|by rewrite Hj]. }
  destruct Hj1 as (G1 & G2 & G3).
  clearbody st1. clear Hj.
  split; [done|]. split; [done|]. split; [done|].
  split.
  - intros Ht1.
    assert (Hd : decided t1 m1 (m_a m1) && decided t1 m1 (m_b m1) = false).
    { unfold decided. simpl.
      destruct (Z.gtb_spec t1 (t0 + DECISION_MS)); [lia|apply andb_false_r]. }
    rewrite (maybeFinish_wait uuid t1 c1 c2 st1 m1 Hm1 eq_refl Hd) in Hsub.
    simpl in Hsub.
    split; [by rewrite Hsub|].
    split; [exists m1; rewrite Hsub; by split|].
    intros Ht2 pz. subst f. rewrite Hsub. simpl.
    unfold timeout. rewrite Htimer1.
    replace (t0 + (DECISION_MS + 250) <=? t2) with true
      by (symmetry; apply Z.leb_le; lia).
    assert (Hd2 : decided t2 m1 (m_a m1) && decided t2 m1 (m_b m1) = true).
    { unfold decided. simpl. rewrite (is_legal_truthy _ Hc). simpl.
      destruct (Z.gtb_spec t2 (t0 + DECISION_MS)); [done|lia]. }
    rewrite (maybeFinish_finalize uuid t2 c3 c4
               (mkState (sockets st1) (waitingByLocation st1) (matches st1)
                  (delete (next_timer st) (timers st1)) (next_timer st1))
               m1 Hm1 eq_refl Hd2). simpl.
    rewrite (js_or_legal _ _ Hc).
    rewrite js_or_null_default by lia.
    unfold emit_if_live. rewrite Hlive1. simpl.
    split; [done|apply map_get_delete_eq].
  - intros Ht1 pz.
    assert (Hd : decided t1 m1 (m_a m1) && decided t1 m1 (m_b m1) = true).
    { unfold decided. simpl. rewrite (is_legal_truthy _ Hc). simpl.
      destruct (Z.gtb_spec t1 (t0 + DECISION_MS)); [done|lia]. }
    rewrite (maybeFinish_finalize uuid t1 c1 c2 st1 m1 Hm1 eq_refl Hd) in Hsub.
    simpl in Hsub.
    rewrite (js_or_legal _ _ Hc) in Hsub.
    rewrite js_or_null_default in Hsub by lia.
    unfold emit_if_live in Hsub. rewrite Hlive1 in Hsub. simpl in Hsub.
    assert (Hgone : timers s.1 !! next_timer st = None)
      by (rewrite Hsub; apply lookup_delete_eq).
    split; [by rewrite Hsub|].
    split; [rewrite Hsub; apply map_get_delete_eq|].
    split; [done|].
    subst f. unfold timeout. by rewrite Hgone.
Qed.

Lemma C10_self_pairing_witness :
  (join_location "A" (str "L") (str "Ann") "m2" 2000 st_one_waiting).2
    = [("A", match_found "m2" "A" (str "Ann") 22000);
       ("A", match_found "m2" "A" (str "Ann") 22000)].
Proof.
  destruct (C10_self_pairing "A" (str "L") (str "Ann") "m2" [] st_one_waiting
              (mkSocket (str "L") (str "Ann") [str "L"]) share
              2000 3000 22250 "K1" "K2" "K3" "K4")
    as (_ & _ & Hj & _); [reflexivity | reflexivity | reflexivity |].
  exact Hj.
Defined.

(** ** Waiting for the timer *)

Lemma maybeFinish_timers matchId now c1 c2 st h v :
  timers (maybeFinish matchId now c1 c2 st).1 !! h = Some v →
  timers st !! h = Some v.
Proof.
  unfold maybeFinish.
  destruct (map_get matchId (matches st)) as [m|]; [|done].
  destruct (m_finished m); [done|].
  destruct (truthy _ && truthy _); [|done]. simpl.
  intros H. by apply lookup_delete_Some in H as [_ H].
Qed.

Lemma submit_choice_elsewhere sid matchId c now c1 c2 st :
  sockets (submit_choice sid matchId c now c1 c2 st).1 = sockets st ∧
  (∀ k, k ≠ matchId →
        map_get k (matches (submit_choice sid matchId c now c1 c2 st).1)
        = map_get k (matches st)) ∧
  (∀ h v, timers (submit_choice sid matchId c now c1 c2 st).1 !! h = Some v →
          timers st !! h = Some v).
Proof.
  unfold submit_choice.
  destruct (sockets st !! sid) as [socket|]; [|done].
  destruct (map_get matchId (matches st)) as [m|] eqn:Hm; [|done].
  destruct (is_legal c); simpl; [|done].
  assert (Hrec : ∀ m',
    let r := maybeFinish matchId now c1 c2
               (mkState (sockets st) (waitingByLocation st)
                  (map_set matchId m' (matches st)) (timers st)
                  (next_timer st)) in
    sockets r.1 = sockets st ∧
    (∀ k, k ≠ matchId → map_get k (matches r.1) = map_get k (matches st)) ∧
    (∀ h v, timers r.1 !! h = Some v → timers st !! h = Some v)).
  { intros m' r. subst r.
    destruct (maybeFinish_frame matchId now c1 c2
                (mkState (sockets st) (waitingByLocation st)
                   (map_set matchId m' (matches st)) (timers st)
                   (next_timer st))) as (H1 & _ & _ & H4).
    split; [done|]. split.
    - intros k Hk. rewrite (H4 k Hk). simpl. apply map_get_set_ne. congruence.
    - intros h v Hh. by apply maybeFinish_timers in Hh. }
  destruct (decide (sid = p_id (m_a m))).
  - specialize (Hrec (set_a m (set_choice (m_a m) c))).
    by destruct (maybeFinish _ _ _ _ _).
  - destruct (decide (sid = p_id (m_b m))); [|done].
    specialize (Hrec (set_b m (set_choice (m_b m) c))).
    by destruct (maybeFinish _ _ _ _ _).
Qed.

Lemma submit_choice_dropped sid matchId c now c1 c2 st m :
  map_get matchId (matches st) = Some m →
  ¬ (is_legal c = true ∧ (sid = p_id (m_a m) ∨ sid = p_id (m_b m))) →
  (submit_choice sid matchId c now c1 c2 st).1 = st.
Proof.
  intros Hm Hno. unfold submit_choice.
  destruct (sockets st !! sid) as [socket|]; [|done]. rewrite Hm.
  destruct (is_legal c); simpl; [|done].
  rewrite !decide_False; [done|intros ?; apply Hno; tauto..].
Qed.

Lemma join_location_effect sid loc name u now st :
  (∀ x, is_Some (sockets st !! x) →
        is_Some (sockets (join_location sid loc name u now st).1 !! x)) ∧
  ((matches (join_location sid loc name u now st).1 = matches st ∧
    timers (join_location sid loc name u now st).1 = timers st) ∨
   (∃ m' d,
      matches (join_location sid loc name u now st).1
        = map_set u m' (matches st) ∧
      timers (join_location sid loc name u now st).1
        = <[next_timer st := (u, d)]> (timers st))).
Proof.
  unfold join_location.
  destruct (sockets st !! sid) as [socket|]; [|split; [done|by left]].
  assert (Hkeep : ∀ x (s : Socket),
            is_Some (sockets st !! x) → is_Some (<[sid := s]> (sockets st) !! x)).
  { intros x s Hx. apply lookup_insert_is_Some'. by right. }
  destruct (default [] _) as [|head rest]; simpl.
  - split; [|by left]. intros x Hx.
    apply lookup_insert_is_Some'. right. by apply Hkeep.
  - destruct (_ !! head) as [partner|]; simpl.
    + split; [intros x Hx; by apply Hkeep|]. right. by eexists _, _.
    + split; [intros x Hx; by apply Hkeep|by left].
Qed.

Lemma disconnect_timers sid st : timers (disconnect sid st).1 = timers st.
Proof.
  unfold disconnect. destruct (sockets st !! sid) as [socket|]; [|done].
  by destruct (cancel_matches _ _ _ _) as [[ms w] out].
Qed.

Lemma map_get_filter_in (P : string * Match → Prop)
    `{!∀ km, Decision (P km)} k m (l : list (string * Match)) :
  NoDup l.*1 → map_get k l = Some m → P (k, m) → map_get k (filter P l) = Some m.
Proof.
  intros Hnd Hm HP. apply elem_of_map_get; [by apply NoDup_filter_keys|].
  apply list_elem_of_filter. split; [done|by apply map_get_elem_of].
Qed.

Lemma awaits_step uuid m0 st i :
  awaits uuid m0 st →
  leaves_waiting uuid (p_id (m_a m0)) (p_id (m_b m0)) (m_timer m0) i →
  awaits uuid m0 (step st i).1.
Proof.
  intros (Hok & Hm & Hown & Ha & Hb) Hi.
  pose proof (table_ok_step st i Hok) as Hok'.
  split; [done|]. clear Hok'.
  destruct i as [sid|sid loc name u now|sid mid c now c1 c2|sid|h now c1 c2];
    simpl in *.
  - repeat split; [done..| |]; apply lookup_insert_is_Some'; by right.
  - destruct (join_location_effect sid loc name u now st) as [Hlive Heff].
    split; [|split; [|split; by apply Hlive]].
    + destruct Heff as [[-> _]|(m' & d & -> & _)]; [done|].
      by rewrite map_get_set_ne.
    + intros h d. destruct Heff as [[_ ->]|(m' & d' & _ & ->)]; [apply Hown|].
      intros Hh. apply lookup_insert_Some in Hh as [[_ [= -> _]]|[_ Hh]];
        [done|by apply (Hown h d)].
  - destruct (decide (mid = uuid)) as [->|Hne].
    + rewrite (submit_choice_dropped sid uuid c now c1 c2 st m0 Hm); [done|].
      intros [Hc Hp]. apply Hi. tauto.
    + destruct (submit_choice_elsewhere sid mid c now c1 c2 st)
        as (Hs & Hk & Ht).
      rewrite Hs. repeat split; [|intros h d Hh; apply (Hown h d), Ht, Hh|done..].
      rewrite Hk by done. done.
  - destruct Hi as [HA HB].
    destruct (sockets st !! sid) as [socket|] eqn:Hs.
    + destruct (disconnect_matches sid st socket Hs) as [Hms Hsocks].
      rewrite Hms, Hsocks, disconnect_timers.
      repeat split; [|done|apply lookup_delete_is_Some; by split..].
      apply map_get_filter_in; [apply Hok|done|].
      unfold cancelled, participant. simpl. intros [_ [?|?]]; congruence.
    + unfold disconnect. by rewrite Hs.
  - unfold timeout.
    destruct (timers st !! h) as [[mid due]|] eqn:Hh; [|done].
    destruct (due <=? now); [|done].
    assert (Hne : mid ≠ uuid) by (intros ->; by apply Hi, (Hown h due)).
    set (st1 := mkState (sockets st) (waitingByLocation st) (matches st)
                  (delete h (timers st)) (next_timer st)).
    destruct (maybeFinish_frame mid now c1 c2 st1) as (H1 & _ & _ & H4).
    rewrite H1. repeat split; [| |done..].
    + rewrite H4 by done. done.
    + intros h' d Hh'. apply maybeFinish_timers in Hh'. simpl in Hh'.
      apply lookup_delete_Some in Hh' as [_ Hh']. by apply (Hown h' d).
Qed.

Lemma awaits_run uuid m0 (inputs : list Input) : ∀ st,
  awaits uuid m0 st →
  Forall (leaves_waiting uuid (p_id (m_a m0)) (p_id (m_b m0)) (m_timer m0))
    inputs →
  awaits uuid m0 (run st inputs).1.
Proof.
  induction inputs as [|i rest IH]; intros st Hst Hall; [done|].
  apply Forall_cons in Hall as [Hi Hall]. simpl.
  specialize (IH (step st i).1 (awaits_step uuid m0 st i Hst Hi) Hall).
  destruct (step st i) as [st1 out1]. simpl in *.
  by destruct (run st1 rest) as [st2 out2].
Qed.

(** C2 as stated fails: no decision before the deadline does not leave the
    match to its timer. In the match of ["A"] and ["B"], made at 1001 with
    deadline 21001 and no decision recorded, ["A"] sends ['share'] at 21100,
    after the deadline and before the timer is due at 21251. The match ends
    at once with ['share'] against the defaulted ['steal'] and a prize code
    for ["B"], and the timer, cleared, has nothing left to do. Nor is a
    still-connected side always sent a [result]: when ["A"] disconnects
    instead, ["B"] is sent [requeue], the match is cancelled, and the timer
    finds nothing. *)
Lemma C2_counterexample :
  let s := submit_choice "A" "m1" share 21100 "K1" "K2" st_two_matched in
  let d := disconnect "A" st_two_matched in
  (∃ m, matches st_two_matched = [("m1", m)] ∧
        p_choice (m_a m) = null ∧ p_choice (m_b m) = null ∧
        m_deadline m = 21001 ∧
        timers st_two_matched !! m_timer m = Some ("m1", 21251)) ∧
  s.2 = [("A", choice_recorded "m1");
         ("A", result "m1" share steal null);
         ("B", result "m1" steal share (str "P-K1-BOTH"))] ∧
  matches s.1 = [] ∧
  timeout 0 21251 "K3" "K4" s.1 = (s.1, []) ∧
  d.2 = [("B", requeue "Opponent disconnected")] ∧
  (timeout 0 21251 "K3" "K4" d.1).2 = [].
Proof.
  split; [eexists; repeat split; reflexivity|].
  repeat split; reflexivity.
Qed.

(** C2, as the code has it. [createMatch] makes a match between two
    connected sockets at time [t0], under an id that no match and no pending
    timer carries, and arms its timer for the deadline plus 250 ms. Let any
    inputs follow in which neither side sends a legal choice for the match,
    neither side disconnects, and no later match is given the same id. Then
    the timer is still pending, and when it fires, at any time from the
    deadline plus 250 ms on, both decisions default to ['steal'], the
    mutual-steal outcome without tokens: each side is sent [result] with both
    choices ['steal'] and a [null] prize code, the match leaves the table and
    the queues stay as they are. *)
Theorem C2_timeout_defaults (idA idB uuid : string) (sockA sockB : Socket)
    (t0 now : Z) (c1 c2 : string) (st : State) (inputs : list Input) :
  table_ok st →
  map_get uuid (matches st) = None →
  (∀ h d, timers st !! h ≠ Some (uuid, d)) →
  is_Some (sockets st !! idA) →
  is_Some (sockets st !! idB) →
  Forall (leaves_waiting uuid idA idB (next_timer st)) inputs →
  t0 + DECISION_MS + 250 ≤ now →
  let st1 := (createMatch idA sockA idB sockB uuid t0 st).1 in
  let st2 := (run st1 inputs).1 in
  let r := timeout (next_timer st) now c1 c2 st2 in
  (∃ m, map_get uuid (matches st2) = Some m ∧
        p_choice (m_a m) = null ∧ p_choice (m_b m) = null ∧
        m_deadline m = t0 + DECISION_MS) ∧
  timers st2 !! next_timer st = Some (uuid, t0 + DECISION_MS + 250) ∧
  resolution c1 c2 steal steal = (Some MutualSteal, false, false) ∧
  r.2 = [(idA, result uuid steal steal null);
         (idB, result uuid steal steal null)] ∧
  matches r.1 = map_delete uuid (matches st2) ∧
  map_get uuid (matches r.1) = None ∧
  waitingByLocation r.1 = waitingByLocation st2.
Proof.
  intros Hok Hfresh Hnotimer HA HB Hquiet Hnow st1 st2 r.
  set (m0 := mkMatch uuid (s_locationId sockA)
               (mkPlayer idA (s_playerName sockA) null)
               (mkPlayer idB (s_playerName sockB) null)
               (t0 + DECISION_MS) false (next_timer st)).
  assert (H1 : awaits uuid m0 st1).
  { split; [by apply table_ok_createMatch|].
    split; [apply map_get_set_eq|]. split; [|by split].
    intros h d Hh. simpl in Hh.
    apply lookup_insert_Some in Hh as [[<- _]|[_ Hh]]; [done|].
    by apply Hnotimer in Hh. }
  pose proof (awaits_run uuid m0 inputs st1 H1 Hquiet)
    as (Hok2 & Hm2 & _ & [sa Ha2] & [sb Hb2]).
  fold st2 in Hok2, Hm2, Ha2, Hb2. simpl in Ha2, Hb2.
  destruct (table_ok_elem st2 uuid m0 Hok2 Hm2) as (_ & _ & Ht2).
  simpl in Ht2.
  split; [by exists m0|].
  split; [rewrite Ht2; do 2 f_equal; lia|].
  split; [done|].
  subst r. unfold timeout. rewrite Ht2.
  replace (t0 + DECISION_MS + 250 <=? now) with true
    by (symmetry; by apply Z.leb_le).
  assert (Hd : decided now m0 (m_a m0) && decided now m0 (m_b m0) = true).
  { rewrite !decided_late; [done|simpl; lia..]. }
  rewrite (maybeFinish_finalize uuid now c1 c2
             (mkState (sockets st2) (waitingByLocation st2) (matches st2)
                (delete (next_timer st) (timers st2)) (next_timer st2))
             m0 Hm2 eq_refl Hd). simpl.
  rewrite js_or_null_default by lia.
  unfold emit_if_live. rewrite Ha2, Hb2. simpl.
  repeat split. apply map_get_delete_eq.
Qed.

Lemma C2_timeout_defaults_witness :
  (timeout 0 21251 "K1" "K2"
     (run (createMatch "A" (mkSocket (str "L") (str "Ann") [str "L"])
             "B" (mkSocket undefined undefined []) "m1" 1001 st_before_match).1
        quiet_inputs).1).2
  = [("A", result "m1" steal steal null); ("B", result "m1" steal steal null)].
Proof.
  destruct (C2_timeout_defaults "A" "B" "m1"
              (mkSocket (str "L") (str "Ann") [str "L"])
              (mkSocket undefined undefined []) 1001 21251 "K1" "K2"
              st_before_match quiet_inputs) as (_ & _ & _ & H & _).
  - apply table_ok_reached. unfold st_before_match.
    apply reached_run, reached_initial.
  - reflexivity.
  - intros h d H. vm_compute in H. discriminate H.
  - by eexists.
  - by eexists.
  - repeat constructor; vm_compute; intuition discriminate.
  - vm_compute. discriminate.
  - exact H.
Defined.

(** ** Queues after a disconnect, exactly *)

Section disconnect_queues.
Variable sid : string.












End disconnect_queues.




(** ** Orderly runs: every socket is where its location says *)










(** ** A disconnect in the middle of a match *)








(** ** Requeue of the survivor *)







